(** * rag-backend: the retrieval core of [server.js]

    A shallow embedding of the in-memory knowledge base, the cosine
    similarity, the ranking pipeline of [POST /chat], the ingest route and
    the snapshot persistence, followed by the properties the specification
    states about them.

    JavaScript numbers are IEEE 754 binary64 values: they are modelled by
    Rocq's primitive [float]s, whose operations are the same binary64
    operations (round to nearest, ties to even; a single NaN).

    A request is modelled as running from its first statement to its
    response: the handlers call the services one at a time, and the
    interleaving of two requests at an [await] is not modelled.  Request
    bodies have the shape the interface gives them: ids, texts and queries
    are strings or missing, [topK] is an integer or missing. *)

From Stdlib Require Import ZArith NArith List Bool Lia Floats.
From Stdlib Require Import String Ascii Sorted Permutation.
From stdpp Require Import base option list.

(** * Part I: the program *)

(** ** Values *)

(** A JavaScript string is a sequence of UTF-16 code units. *)
Definition jsstring := list N.

(** The code units of an ASCII literal of the source. *)
Definition lit (s : string) : jsstring :=
  map N_of_ascii (list_ascii_of_string s).

(** An element of an embedding array.  The provider sends numbers; [null]
    appears when a snapshot is read back, see [serializeElem]. *)
Inductive elem :=
  | Num (x : float)
  | Null.

Definition vec := list elem.

(** [a[i]] as an operand of [*]: the element is converted with ToNumber.
    Reading past the end of an array gives [undefined], whose number is
    NaN; the number of [null] is [+0]. *)
Definition toNumber (e : option elem) : float :=
  match e with
  | Some (Num x) => x
  | Some Null => 0%float
  | None => nan
  end.

(** ** Similarity engine: [cosine] (lines 61-69) *)

(** The literal [1e-9] denotes the binary64 value nearest to it. *)
Definition epsilon : float := 0x1.12e0be826d695p-30%float.

(** One iteration of the loop body, on the accumulators [(dot, na, nb)]. *)
Definition cosine_body (a b : vec) (acc : float * float * float) (i : nat)
  : float * float * float :=
  let '(dot, na, nb) := acc in
  let ai := toNumber (a !! i) in
  let bi := toNumber (b !! i) in
  (dot + ai * bi, na + ai * ai, nb + bi * bi)%float.

(** [for (let i = 0; i < a.length; i++) { ... }] from [dot = na = nb = 0]. *)
Definition cosine_sums (a b : vec) : float * float * float :=
  fold_left (cosine_body a b) (seq 0 (length a)) (0, 0, 0)%float.

(** The third accumulator, [nb]. *)
Definition sumsq (acc : float * float * float) : float := snd acc.

Definition cosine (a b : vec) : float :=
  let '(dot, na, nb) := cosine_sums a b in
  (dot / (sqrt na * sqrt nb + epsilon))%float.

Definition zeros (n : nat) : vec := replicate n (Num 0%float).

(** ** Documents, the store and its environment *)

(** [{ id, text, embedding, timestamp }] (line 20).  The embedding property
    is absent until it is computed. *)
Record Doc := mkDoc {
  doc_id : jsstring;
  doc_text : jsstring;
  doc_embedding : option vec;
  doc_timestamp : jsstring
}.

(** What a call to an external service does: it answers, or the request
    throws with a message. *)
Inductive reply (A : Type) :=
  | Reply (r : A)
  | Failure (message : jsstring).
Arguments Reply {A} r.
Arguments Failure {A} message.

(** Everything outside the process.  The services and the clock are asked
    in sequence; the n-th request may be answered differently from the
    others.  [toISOString] and [toFixed4] are the formatting built-ins
    [Date.prototype.toISOString] and [x => +x.toFixed(4)]. *)
Record Env := mkEnv {
  embedding_service : nat -> jsstring -> reply vec;
  generation_service : nat -> jsstring -> reply jsstring;
  clock : nat -> float;
  toISOString : float -> jsstring;
  toFixed4 : float -> float
}.

(** The state of the process and of what it has touched: the module
    variable [kb], the value held by the snapshot file [./kb.json] when it
    exists, the texts sent so far to the embedding service, the prompts
    sent so far to the generation service, and the number of clock
    readings made. *)
Record World := mkWorld {
  kb : list Doc;
  disk : option (list Doc);
  embed_log : list jsstring;
  prompt_log : list jsstring;
  ticks : nat
}.

Definition set_kb (k : list Doc) (w : World) : World :=
  mkWorld k (disk w) (embed_log w) (prompt_log w) (ticks w).

Definition set_disk (d : option (list Doc)) (w : World) : World :=
  mkWorld (kb w) d (embed_log w) (prompt_log w) (ticks w).

Definition set_embed_log (l : list jsstring) (w : World) : World :=
  mkWorld (kb w) (disk w) l (prompt_log w) (ticks w).

Definition set_prompt_log (l : list jsstring) (w : World) : World :=
  mkWorld (kb w) (disk w) (embed_log w) l (ticks w).

Definition set_ticks (n : nat) (w : World) : World :=
  mkWorld (kb w) (disk w) (embed_log w) (prompt_log w) n.

(** ** Computations that may throw *)

Inductive outcome (A : Type) :=
  | Ret (a : A)
  | Throw (message : jsstring).
Arguments Ret {A} a.
Arguments Throw {A} message.

(** A computation changes the world and returns or throws; what it changed
    before throwing stays changed. *)
Definition M (A : Type) : Type := World -> outcome A * World.

Definition ret {A} (a : A) : M A := fun w => (Ret a, w).

Definition bind {A B} (c : M A) (k : A -> M B) : M B :=
  fun w =>
    match c w with
    | (Ret a, w') => k a w'
    | (Throw message, w') => (Throw message, w')
    end.

Notation "'let*' x ':=' c 'in' k" := (bind c (fun x => k))
  (at level 10, x name, c at level 100, k at level 200).
Notation "c ';;' k" := (bind c (fun _ => k))
  (at level 100, k at level 200, right associativity).

Definition modify (f : World -> World) : M unit := fun w => (Ret tt, f w).

Definition gets {A} (f : World -> A) : M A := fun w => (Ret (f w), w).

(** Lifting a pure computation that may throw. *)
Definition lift {A} (o : outcome A) : M A := fun w => (o, w).

(** ** Persistence: [saveKB] and [loadKB] (lines 22-43) *)

(** What [JSON.stringify] writes for an array element and [JSON.parse]
    reads back.  A finite number is printed by Number::toString, which
    prints both zeros as [0] and any other finite number as a decimal that
    reads back as the same number; NaN and the infinities are printed as
    [null], and [null] as [null].  The snapshot is modelled by the value its
    text denotes, not character by character. *)
Definition serializeElem (e : elem) : elem :=
  match e with
  | Num x =>
      if is_finite x then (if is_zero x then Num 0%float else Num x)
      else Null
  | Null => Null
  end.

(** Strings are printed quoted and escaped, and read back unchanged; an
    absent [embedding] property is left out. *)
Definition serializeDoc (d : Doc) : Doc :=
  mkDoc (doc_id d) (doc_text d)
        (option_map (map serializeElem) (doc_embedding d))
        (doc_timestamp d).

Definition seed1_text : jsstring :=
  lit "TinyLlama is a small language model optimized for fast inference on modest hardware.".

Definition seed2_text : jsstring :=
  lit "React Native builds mobile apps using JavaScript and native widgets for iOS and Android.".

Section Program.

Variable env : Env.

(** [fs.writeFileSync(KB_PATH, JSON.stringify(kb, null, 2))] *)
Definition saveKB : M unit :=
  modify (fun w => set_disk (Some (map serializeDoc (kb w))) w).

(** [new Date().toISOString()] *)
Definition isoNow : M jsstring :=
  fun w => (Ret (toISOString env (clock env (ticks w))), set_ticks (S (ticks w)) w).

(** [Date.now()] *)
Definition dateNow : M float :=
  fun w => (Ret (clock env (ticks w)), set_ticks (S (ticks w)) w).

Definition loadKB : M unit :=
  let* snapshot := gets disk in
  match snapshot with
  | Some docs => modify (set_kb docs)
  | None =>
      let* t1 := isoNow in
      let* t2 := isoNow in
      modify (set_kb [ mkDoc (lit "d1") seed1_text None t1;
                       mkDoc (lit "d2") seed2_text None t2 ])
  end.

(** ** Embedding gateway: [embedOne] (lines 45-51) *)

Definition embedOne (text : jsstring) : M vec :=
  fun w =>
    let w' := set_embed_log (embed_log w ++ [text]) w in
    match embedding_service env (length (embed_log w)) text with
    | Reply v => (Ret v, w')
    | Failure message => (Throw message, w')
    end.

(** ** Backfill: [ensureEmbeddings] (lines 53-59) *)

(** [!d.embedding] *)
Definition lacksEmbedding (d : Doc) : bool :=
  match doc_embedding d with
  | None => true
  | Some _ => false
  end.

(** [kb.filter(d => !d.embedding)]: the documents of the result are the
    objects of [kb] themselves; they are named here by their index. *)
Definition toEmbed (docs : list Doc) : list nat :=
  List.filter (fun i => match docs !! i with
                        | Some d => lacksEmbedding d
                        | None => false
                        end) (seq 0 (length docs)).

(** [d.embedding = v] on the object at index [i]. *)
Definition assignEmbedding (i : nat) (v : vec) (docs : list Doc) : list Doc :=
  match docs !! i with
  | Some d => <[ i := mkDoc (doc_id d) (doc_text d) (Some v) (doc_timestamp d) ]> docs
  | None => docs
  end.

Fixpoint backfill (idx : list nat) : M unit :=
  match idx with
  | [] => ret tt
  | i :: rest =>
      let* docs := gets kb in
      match docs !! i with
      | Some d =>
          let* v := embedOne (doc_text d) in
          modify (fun w => set_kb (assignEmbedding i v (kb w)) w);;
          backfill rest
      | None => backfill rest
      end
  end.

Definition ensureEmbeddings : M unit :=
  let* docs := gets kb in
  backfill (toEmbed docs);;
  saveKB.

(** ** Ingest: [POST /ingest] (lines 83-102) *)

(** An element of [req.body.documents]; either property may be missing. *)
Record Item := mkItem {
  item_id : option jsstring;
  item_text : option jsstring
}.

Inductive Source := mkSource (id : jsstring) (score : float) (timestamp : jsstring).

(** What a route sends back. *)
Inductive Response :=
  | Added (added : nat)
  | Answer (response : jsstring) (elapsed : float) (sources : list Source)
  | Error (status : Z) (error : jsstring).

(** [!s] on a string that may be missing: missing or empty. *)
Definition falsy (s : option jsstring) : bool :=
  match s with
  | None | Some [] => true
  | Some (_ :: _) => false
  end.

(** [if (!doc.id || !doc.text) continue;] *)
Definition skipped (doc : Item) : bool := falsy (item_id doc) || falsy (item_text doc).

Definition textOf (doc : Item) : jsstring := default [] (item_text doc).

Definition idOf (doc : Item) : jsstring := default [] (item_id doc).

Fixpoint ingestLoop (docs : list Item) : M unit :=
  match docs with
  | [] => ret tt
  | doc :: rest =>
      if skipped doc then ingestLoop rest
      else
        let* embedding := embedOne (textOf doc) in
        let* t := isoNow in
        modify (fun w => set_kb (kb w ++ [mkDoc (idOf doc) (textOf doc) (Some embedding) t]) w);;
        ingestLoop rest
  end.

(** [try { ... } catch (e) { res.status(500).json({ error: e.message }) }] *)
Definition handle (c : M Response) : World -> Response * World :=
  fun w =>
    match c w with
    | (Ret r, w') => (r, w')
    | (Throw message, w') => (Error 500 message, w')
    end.

Definition ingest (documents : option (list Item)) : World -> Response * World :=
  handle (
    let docs := default [] documents in
    ingestLoop docs;;
    saveKB;;
    ret (Added (length docs))).

(** ** Ranking (lines 110-113) *)

(** [{ ...d, score }] *)
Record Scored := mkScored {
  scored_doc : Doc;
  score : float
}.

(** The message of the TypeError raised by [b[0]] when [b] is [undefined]. *)
Definition typeError : jsstring :=
  lit "Cannot read properties of undefined (reading '0')".

(** [cosine(qemb, d.embedding)].  With the embedding absent, the first
    iteration throws; there is none when [qemb] is empty. *)
Definition cosineOf (qemb : vec) (b : option vec) : outcome float :=
  match b with
  | Some b => Ret (cosine qemb b)
  | None =>
      match qemb with
      | [] => Ret (cosine [] [])
      | _ :: _ => Throw typeError
      end
  end.

(** [kb.map(d => ({ ...d, score: cosine(qemb, d.embedding) }))] *)
Fixpoint scoreAll (qemb : vec) (docs : list Doc) : outcome (list Scored) :=
  match docs with
  | [] => Ret []
  | d :: rest =>
      match cosineOf qemb (doc_embedding d) with
      | Throw message => Throw message
      | Ret s =>
          match scoreAll qemb rest with
          | Throw message => Throw message
          | Ret l => Ret (mkScored d s :: l)
          end
      end
  end.

(** [(a, b) => b.score - a.score] *)
Definition compareFn (a b : Scored) : float := (score b - score a)%float.

(** [Array.prototype.sort] is stable and puts [x] after [y] when the
    comparator is positive on [(x, y)]; a NaN comparison counts as [+0].
    For a consistent comparator this fixes the result, which is the one of
    the stable insertion sort below. *)
Fixpoint insert (x : Scored) (l : list Scored) : list Scored :=
  match l with
  | [] => [x]
  | y :: rest =>
      if (0 <? compareFn x y)%float then y :: insert x rest
      else x :: y :: rest
  end.

Fixpoint sort (l : list Scored) : list Scored :=
  match l with
  | [] => []
  | x :: rest => insert x (sort rest)
  end.

(** [l.slice(0, e)] for an integer [e]: a negative [e] counts from the
    end. *)
Definition slice0 {A} (l : list A) (e : Z) : list A :=
  let len := Z.of_nat (length l) in
  let final := if (e <? 0)%Z then Z.max (len + e) 0 else Z.min e len in
  take (Z.to_nat final) l.

(** [const { query, topK = 3 } = req.body]: the default applies when the
    property is missing. *)
Definition topKOf (topK : option Z) : Z := default 3%Z topK.

Definition rank (qemb : vec) (topK : option Z) (docs : list Doc)
  : outcome (list Scored) :=
  match scoreAll qemb docs with
  | Throw message => Throw message
  | Ret scored => Ret (slice0 (sort scored) (topKOf topK))
  end.

(** ** Chat: [POST /chat] (lines 104-148) *)

(** WhiteSpace and LineTerminator code points, all in the basic plane. *)
Definition isWhiteSpace (c : N) : bool :=
  let within lo hi := ((lo <=? c) && (c <=? hi))%N in
  within 9%N 13%N || (c =? 32)%N || (c =? 160)%N || (c =? 5760)%N
  || within 8192%N 8202%N || (c =? 8232)%N || (c =? 8233)%N
  || (c =? 8239)%N || (c =? 8287)%N || (c =? 12288)%N || (c =? 65279)%N.

Fixpoint trimStart (s : jsstring) : jsstring :=
  match s with
  | c :: rest => if isWhiteSpace c then trimStart rest else s
  | [] => []
  end.

Definition trim (s : jsstring) : jsstring := rev (trimStart (rev (trimStart s))).

(** [!query || !query.trim()] *)
Definition blank (query : option jsstring) : bool :=
  falsy query || falsy (option_map trim query).

(** [parts.join(sep)] *)
Fixpoint join (sep : jsstring) (parts : list jsstring) : jsstring :=
  match parts with
  | [] => []
  | [p] => p
  | p :: rest => p ++ sep ++ join sep rest
  end.

Definition newline : jsstring := [10%N].

Definition contextOf (ranked : list Scored) : jsstring :=
  join (newline ++ lit "---" ++ newline)
       (map (fun d => lit "[" ++ doc_id (scored_doc d) ++ lit "] " ++ doc_text (scored_doc d))
            ranked).

Definition promptOf (context query : jsstring) : jsstring :=
  lit "You are a helpful assistant. Use the CONTEXT to answer clearly." ++ newline
  ++ lit "If the answer is not in the context, say you are not sure." ++ newline
  ++ newline
  ++ lit "CONTEXT:" ++ newline
  ++ context ++ newline
  ++ newline
  ++ lit "USER: " ++ query ++ newline
  ++ lit "ASSISTANT:".

(** [axios.post(`${OLLAMA}/api/generate`, ...)] *)
Definition generate (prompt : jsstring) : M jsstring :=
  fun w =>
    let w' := set_prompt_log (prompt_log w ++ [prompt]) w in
    match generation_service env (length (prompt_log w)) prompt with
    | Reply r => (Ret r, w')
    | Failure message => (Throw message, w')
    end.

Definition sourceOf (x : Scored) : Source :=
  mkSource (doc_id (scored_doc x)) (toFixed4 env (score x)) (doc_timestamp (scored_doc x)).

Definition chat (query : option jsstring) (topK : option Z) : World -> Response * World :=
  handle (
    if blank query then ret (Error 400 (lit "query is required"))
    else
      let q := default [] query in
      let* qemb := embedOne q in
      let* docs := gets kb in
      let* ranked := lift (rank qemb topK docs) in
      let prompt := promptOf (contextOf ranked) q in
      let* t0 := dateNow in
      let* r := generate prompt in
      let* t1 := dateNow in
      let elapsed := ((t1 - t0) / 1000)%float in
      ret (Answer r elapsed (map sourceOf ranked))).

(** ** The requests served after startup *)

Inductive Op :=
  | OpBackfill
  | OpIngest (documents : option (list Item))
  | OpChat (query : option jsstring) (topK : option Z).

Definition step (op : Op) (w : World) : World :=
  match op with
  | OpBackfill => snd (ensureEmbeddings w)
  | OpIngest documents => snd (ingest documents w)
  | OpChat query topK => snd (chat query topK w)
  end.

(** [fold_left] runs the operations in order. *)
Definition run (ops : list Op) (w : World) : World :=
  fold_left (fun w op => step op w) ops w.

End Program.

(** ** The other routes and the startup *)

Section Routes.

Variable env : Env.

(** An element of the answer of [GET /kb]: [{ id, text, timestamp }]. *)
Record Entry := mkEntry {
  entry_id : jsstring;
  entry_text : jsstring;
  entry_timestamp : jsstring
}.

Definition entryOf (d : Doc) : Entry :=
  mkEntry (doc_id d) (doc_text d) (doc_timestamp d).

(** [GET /kb] (lines 79-81) *)
Definition listKB : M (list Entry) :=
  let* docs := gets kb in
  ret (map entryOf docs).

(** The answer of [GET /health]. *)
Record Health := mkHealth {
  health_status : jsstring;
  health_timestamp : jsstring;
  kbSize : nat
}.

(** [GET /health] (lines 71-77) *)
Definition health : M Health :=
  let* t := isoNow env in
  let* docs := gets kb in
  ret (mkHealth (lit "ok") t (length docs)).

(** The callback of [app.listen] (lines 151-155), up to its log line. *)
Definition startup : M unit :=
  loadKB env;;
  ensureEmbeddings env.

End Routes.

(** ** Configuration (lines 11-15) *)

(** [s.startsWith(p)] *)
Fixpoint startsWith (p s : jsstring) : bool :=
  match p, s with
  | [], _ => true
  | _ :: _, [] => false
  | c :: p', d :: s' => (c =? d)%N && startsWith p' s'
  end.

(** [OLLAMA], from [process.env.OLLAMA_HOST], which is a string or is
    missing; a missing value is printed [undefined] by the template. *)
Definition ollamaOf (host : option jsstring) : jsstring :=
  match host with
  | Some h => if startsWith (lit "http") h then h else lit "http://" ++ h
  | None => lit "http://undefined"
  end.

(** ** Auxiliary notions used in the statements and proofs *)

(** Zero or finite: neither NaN nor an infinity. *)
Definition SFfinite (x : spec_float) : bool :=
  match x with
  | S754_zero _ | S754_finite _ _ _ => true
  | _ => false
  end.

(** Closes a case of a comparison that is decided by the signs alone. *)
Ltac trivial_case := first [discriminate | reflexivity | idtac].

(** Swapping the arguments of [cosine] swaps the two norm accumulators. *)
Definition swap_norms (acc : float * float * float) : float * float * float :=
  let '(dot, na, nb) := acc in (dot, nb, na).

(** The items of a batch that are not skipped. *)
Definition accepted (docs : list Item) : list Item :=
  List.filter (fun doc => negb (skipped doc)) docs.

(** The embedding service answers the requests number [n], [n + 1], ...
    when they carry the given texts. *)
Definition answers (env : Env) (n : nat) (texts : list jsstring) : Prop :=
  forall i t, texts !! i = Some t ->
    exists v, embedding_service env (n + i) t = Reply v.

(** The documents appended for the accepted items of a batch: their ids and
    texts in order, each with an embedding. *)
Definition ingestedFrom (docs : list Item) (new : list Doc) : Prop :=
  map doc_id new = map idOf (accepted docs) /\
  map doc_text new = map textOf (accepted docs) /\
  Forall (fun d => is_Some (doc_embedding d)) new.

(** An array element that [JSON.stringify] prints as itself: [null], or a
    finite number other than [-0]. *)
Definition storable (e : elem) : Prop :=
  match e with
  | Num x => is_finite x = true /\ x <> (-0)%float
  | Null => True
  end.

Definition storableDoc (d : Doc) : Prop :=
  forall v, doc_embedding d = Some v -> Forall storable v.

(** [d'] is [d] except that an absent embedding may have become present. *)
Definition sameDocument (d d' : Doc) : Prop :=
  doc_id d' = doc_id d /\ doc_text d' = doc_text d /\
  doc_timestamp d' = doc_timestamp d /\
  (doc_embedding d' = doc_embedding d \/
   (doc_embedding d = None /\ is_Some (doc_embedding d'))).

Definition preserved (old new : list Doc) : Prop :=
  forall i d, old !! i = Some d -> exists d', new !! i = Some d' /\ sameDocument d d'.

(** ** Sample environments and states *)

(** Every service answers. *)
Definition env_up : Env :=
  mkEnv (fun _ _ => Reply [Num 1; Num 0; Num 0]%float)
        (fun _ _ => Reply (lit "I am not sure."))
        (fun n => 0%float)
        (fun _ => lit "2024-01-01T00:00:00.000Z")
        (fun x => x).

(** The embedding service answers its first request only. *)
Definition env_second_fails : Env :=
  mkEnv (fun n _ => if (n <? 1)%nat then Reply [Num 1; Num 0]%float
                    else Failure (lit "connect ECONNREFUSED"))
        (fun _ _ => Reply (lit "I am not sure."))
        (fun n => 0%float)
        (fun _ => lit "2024-01-01T00:00:00.000Z")
        (fun x => x).

Definition world0 : World := mkWorld [] None [] [] 0.

Definition item (id text : string) : Item := mkItem (Some (lit id)) (Some (lit text)).

Definition doc_x : Doc :=
  mkDoc (lit "x") (lit "hello") (Some [Num 1; Num 0; Num 0]%float)
        (lit "2024-01-01T00:00:00.000Z").

Definition doc_inf : Doc :=
  mkDoc (lit "x") (lit "hello") (Some [Num infinity])
        (lit "2024-01-01T00:00:00.000Z").

Definition doc_seed : Doc :=
  mkDoc (lit "d1") seed1_text None (lit "2024-01-01T00:00:00.000Z").

(** [y] does not score above [x]. *)
Definition notAbove (x y : Scored) : Prop := (score y <=? score x)%float = true.

(** Scores from the highest to the lowest: each candidate scores at most
    as much as every candidate before it. *)
Definition descending (l : list Scored) : Prop := StronglySorted notAbove l.

Definition numeric (l : list Scored) : Prop :=
  Forall (fun x => is_nan (score x) = false) l.

(** A document whose score against [qemb] is computed and is a number. *)
Definition scorable (qemb : vec) (d : Doc) : Prop :=
  exists s, cosineOf qemb (doc_embedding d) = Ret s /\ is_nan s = false.

Definition doc_a : Doc :=
  mkDoc (lit "a") (lit "first") (Some [Num 1; Num 0]%float)
        (lit "2024-01-01T00:00:00.000Z").

Definition doc_b : Doc :=
  mkDoc (lit "b") (lit "second") (Some [Num 0; Num 1]%float)
        (lit "2024-01-01T00:00:00.000Z").

Definition doc_big : Doc :=
  mkDoc (lit "big") (lit "third") (Some [Num 0x1p+600%float])
        (lit "2024-01-01T00:00:00.000Z").

Definition doc_one : Doc :=
  mkDoc (lit "one") (lit "fourth") (Some [Num 1%float])
        (lit "2024-01-01T00:00:00.000Z").

(** ** Further notions used in the statements *)

Definition embedded (d : Doc) : Prop := is_Some (doc_embedding d).

(** The text of the document at index [i]. *)
Definition textAt (docs : list Doc) (i : nat) : jsstring :=
  from_option doc_text [] (docs !! i).

(** The texts of the documents that lack an embedding, in store order. *)
Definition missingTexts (docs : list Doc) : list jsstring :=
  map doc_text (List.filter lacksEmbedding docs).

(** Saving the store and loading it again. *)
Definition roundTrip (env : Env) (w : World) : World :=
  snd (loadKB env (snd (saveKB w))).

(** Every candidate scores [+0]. *)
Definition zeroScored (docs : list Doc) : list Scored :=
  map (fun d => mkScored d 0%float) docs.

(** The embedding service fails on every request. *)
Definition env_down : Env :=
  mkEnv (fun _ _ => Failure (lit "connect ECONNREFUSED"))
        (fun _ _ => Reply (lit "I am not sure."))
        (fun n => 0%float)
        (fun _ => lit "2024-01-01T00:00:00.000Z")
        (fun x => x).

(** * Part II: properties *)

(** ** Facts about binary64 arithmetic *)

Section Binary64.

Local Open Scope float_scope.

Lemma SF64mul_comm (x y : spec_float) : SF64mul x y = SF64mul y x.
Proof.
  unfold SF64mul, SFmul.
  destruct x as [sx|sx| |sx mx ex], y as [sy|sy| |sy my ey];
    try reflexivity; try (now rewrite (xorb_comm sx sy)).
  now rewrite (xorb_comm sx sy), (Pos.mul_comm mx my), (Z.add_comm ex ey).
Qed.

Lemma mul_comm (x y : float) : x * y = y * x.
Proof. apply Prim2SF_inj. rewrite !mul_spec. apply SF64mul_comm. Qed.

Lemma SFeqb_refl_finite s m e :
  SFeqb (S754_finite s m e) (S754_finite s m e) = true.
Proof.
  pose proof (Z.compare_refl e) as Hz.
  pose proof (Pos.compare_cont_refl m Eq) as Hp.
  unfold SFeqb, SFcompare. destruct s; now rewrite Hz, Hp.
Qed.

Lemma is_finite_spec (x : float) : is_finite x = SFfinite (Prim2SF x).
Proof.
  unfold is_finite, is_nan, is_infinity.
  rewrite !FloatAxioms.eqb_spec, abs_spec.
  change (Prim2SF infinity) with (S754_infinity false).
  destruct (Prim2SF x) as [s|s| |s m e]; try reflexivity.
  - now destruct s.
  - rewrite SFeqb_refl_finite. reflexivity.
Qed.

Lemma SF64add_finite x y :
  SFfinite (SF64add x y) = true -> SFfinite x = true /\ SFfinite y = true.
Proof.
  destruct x as [sx|sx| |sx mx ex], y as [sy|sy| |sy my ey];
    try (now split); try discriminate;
    destruct sx, sy; discriminate.
Qed.

Lemma SF64mul_square_finite x :
  SFfinite (SF64mul x x) = true -> SFfinite x = true.
Proof. destruct x as [sx|sx| |sx mx ex]; try discriminate; reflexivity. Qed.

Lemma SF64sqrt_finite x :
  SFfinite (SF64sqrt x) = true -> SFfinite x = true.
Proof.
  destruct x as [sx|sx| |sx mx ex]; try reflexivity; try discriminate.
  now destruct sx.
Qed.

Lemma add_finite (x y : float) :
  is_finite (x + y) = true -> is_finite x = true /\ is_finite y = true.
Proof. rewrite !is_finite_spec, add_spec. apply SF64add_finite. Qed.

Lemma square_finite (x : float) :
  is_finite (x * x) = true -> is_finite x = true.
Proof. rewrite !is_finite_spec, mul_spec. apply SF64mul_square_finite. Qed.

Lemma sqrt_finite (x : float) :
  is_finite (sqrt x) = true -> is_finite x = true.
Proof. rewrite !is_finite_spec, sqrt_spec. apply SF64sqrt_finite. Qed.

(** [0 * y] is a zero when [y] is finite (and NaN otherwise). *)
Lemma zero_mul_finite (y : float) :
  is_finite y = true -> 0 * y = 0 \/ 0 * y = -0.
Proof.
  rewrite is_finite_spec. intros Hy.
  assert (E : exists s, Prim2SF (0 * y) = S754_zero s).
  { rewrite mul_spec. change (Prim2SF 0) with (S754_zero false).
    destruct (Prim2SF y) as [s|s| |s m e]; try discriminate; now exists s. }
  destruct E as [s E]. rewrite <- (SF2Prim_Prim2SF (0 * y)), E.
  destruct s; [now right | now left].
Qed.

End Binary64.

(** ** Order of binary64 numbers and the sign of a difference *)
Section Ordering.

Local Open Scope Z_scope.

Lemma digits2_bounds (m : positive) :
  2 ^ (Zpos (digits2_pos m) - 1) <= Zpos m < 2 ^ Zpos (digits2_pos m).
Proof.
  induction m as [p IH|p IH|]; cbn [digits2_pos].
  - rewrite Pos2Z.inj_succ, (Pos2Z.inj_xI p).
    replace (Z.succ (Zpos (digits2_pos p)) - 1) with (Z.succ (Zpos (digits2_pos p) - 1)) by lia.
    rewrite !Z.pow_succ_r by lia. lia.
  - rewrite Pos2Z.inj_succ, (Pos2Z.inj_xO p).
    replace (Z.succ (Zpos (digits2_pos p)) - 1) with (Z.succ (Zpos (digits2_pos p) - 1)) by lia.
    rewrite !Z.pow_succ_r by lia. lia.
  - cbn. lia.
Qed.

Lemma bounded_facts (m : positive) (e : Z) :
  bounded prec emax m e = true ->
  -1074 <= e /\ Zpos (digits2_pos m) <= 53 /\
  (-1074 < e -> Zpos (digits2_pos m) = 53).
Proof.
  unfold bounded, canonical_mantissa, fexp, SpecFloat.emin, prec, emax.
  intros [H1 H2]%andb_true_iff. apply Z.eqb_eq in H1. lia.
Qed.

Lemma shl_align_le (m : positive) (e e' : Z) :
  e' <= e -> Zpos (fst (shl_align m e e')) = Zpos m * 2 ^ (e - e').
Proof.
  intros Hle. unfold shl_align.
  destruct (e' - e) as [|d|d] eqn:Hd; cbn [fst].
  - replace (e - e') with 0 by lia. lia.
  - lia.
  - replace (e - e') with (Zpos d) by lia.
    change (Pos.iter xO m d) with (shift_pos d m).
    rewrite shift_pos_correct, Z.pow_pos_fold. lia.
Qed.

(** Magnitudes of two numbers in canonical form, brought to their smaller
    exponent, compare as the exponents do, and as the mantissas when the
    exponents are equal. *)
Lemma aligned_compare (mx my : positive) (ex ey : Z) :
  bounded prec emax mx ex = true -> bounded prec emax my ey = true ->
  let ez := Z.min ex ey in
  let X := Zpos (fst (shl_align mx ex ez)) in
  let Y := Zpos (fst (shl_align my ey ez)) in
  match ex ?= ey with
  | Lt => X < Y
  | Gt => Y < X
  | Eq => X = Zpos mx /\ Y = Zpos my
  end.
Proof.
  intros Hx%bounded_facts Hy%bounded_facts ez X Y.
  subst X Y. rewrite !shl_align_le by (subst ez; lia).
  pose proof (digits2_bounds mx) as Bx. pose proof (digits2_bounds my) as By.
  destruct (Z.compare_spec ex ey) as [E|L|G]; subst ez.
  - subst ey. rewrite Z.min_id, Z.sub_diag. lia.
  - rewrite Z.min_l by lia. rewrite Z.sub_diag, Z.mul_1_r.
    assert (Hd : Zpos (digits2_pos my) = 53) by lia. rewrite Hd in By.
    assert (2 ^ Zpos (digits2_pos mx) <= 2 ^ 53) by (apply Z.pow_le_mono_r; lia).
    assert (2 ^ 1 <= 2 ^ (ey - ex)) by (apply Z.pow_le_mono_r; lia).
    change (2 ^ 1) with 2 in *. change (2 ^ 53) with (2 * 2 ^ (53 - 1)) in *.
    nia.
  - rewrite Z.min_r by lia. rewrite Z.sub_diag, Z.mul_1_r.
    assert (Hd : Zpos (digits2_pos mx) = 53) by lia. rewrite Hd in Bx.
    assert (2 ^ Zpos (digits2_pos my) <= 2 ^ 53) by (apply Z.pow_le_mono_r; lia).
    assert (2 ^ 1 <= 2 ^ (ex - ey)) by (apply Z.pow_le_mono_r; lia).
    change (2 ^ 1) with 2 in *. change (2 ^ 53) with (2 * 2 ^ (53 - 1)) in *.
    nia.
Qed.


Lemma iter_pos_nat {A} (f : A -> A) (q : positive) (x : A) :
  SpecFloat.iter_pos f q x = Nat.iter (Pos.to_nat q) f x.
Proof.
  revert x. induction q as [q IH|q IH|]; intros x; cbn [SpecFloat.iter_pos].
  - rewrite !IH, Pos2Nat.inj_xI, <- Nat.iter_succ_r.
    rewrite <- Nat.iter_add. f_equal. lia.
  - rewrite !IH, Pos2Nat.inj_xO, <- Nat.iter_add. f_equal. lia.
  - reflexivity.
Qed.

(** Shifting right by fewer bits than the number has leaves a positive
    number. *)
Lemma shr_1_iter_pos (k : nat) (m : positive) (r s : bool) :
  (k < Pos.to_nat (digits2_pos m))%nat ->
  exists m' r' s', Nat.iter k shr_1 (Build_shr_record (Zpos m) r s)
                   = Build_shr_record (Zpos m') r' s'.
Proof.
  revert m r s. induction k as [|k IH]; intros m r s Hk; [now eauto|].
  rewrite Nat.iter_succ_r.
  destruct m as [p|p|]; cbn [shr_1 digits2_pos] in *;
    try (apply IH; rewrite Pos2Nat.inj_succ in Hk; lia).
  change (Pos.to_nat 1) with 1%nat in Hk. lia.
Qed.

Lemma shr_record_of_loc_m (m : Z) (l : location) :
  exists r s, shr_record_of_loc m l = Build_shr_record m r s.
Proof. destruct l as [|[]]; cbn; eauto. Qed.

Lemma shr_fexp_pos (m : positive) (e : Z) (l : location) :
  -1074 <= e ->
  exists m' r s e', shr_fexp prec emax (Zpos m) e l
                    = (Build_shr_record (Zpos m') r s, e') /\ -1074 <= e'.
Proof.
  intros He. unfold shr_fexp, shr.
  destruct (shr_record_of_loc_m (Zpos m) l) as (r & s & ->).
  destruct (fexp prec emax (Zdigits2 (Zpos m) + e) - e) as [|q|q] eqn:Hq;
    try (now exists m, r, s, e).
  assert (Hlt : Zpos q < Zpos (digits2_pos m)).
  { revert Hq. unfold fexp, SpecFloat.emin, prec, emax, Zdigits2. lia. }
  rewrite iter_pos_nat.
  destruct (shr_1_iter_pos (Pos.to_nat q) m r s) as (m' & r' & s' & ->); [lia|].
  exists m', r', s', (e + Zpos q). split; [reflexivity | lia].
Qed.

Lemma round_nearest_even_pos (m : positive) (l : location) :
  exists m', round_nearest_even (Zpos m) l = Zpos m'.
Proof.
  destruct l as [|[]]; cbn [round_nearest_even]; eauto.
  - destruct (Z.even (Zpos m)); eauto.
Qed.

(** Rounding a positive number whose exponent is not below the least one
    gives a positive number or [+Infinity], never a zero. *)
Lemma binary_round_aux_pos (m : positive) (e : Z) (l : location) :
  -1074 <= e ->
  SFltb (S754_zero false) (binary_round_aux prec emax false (Zpos m) e l) = true.
Proof.
  intros He. unfold binary_round_aux.
  destruct (shr_fexp_pos m e l He) as (m1 & r1 & s1 & e1 & -> & He1).
  cbn [shr_m].
  destruct (round_nearest_even_pos m1 (loc_of_shr_record (Build_shr_record (Zpos m1) r1 s1)))
    as [m2 ->].
  destruct (shr_fexp_pos m2 e1 loc_Exact He1) as (m3 & r3 & s3 & e3 & -> & He3).
  cbn [shr_m]. now destruct (e3 <=? emax - prec).
Qed.

(** Rounding with the negative sign never gives a number above zero. *)
Lemma binary_round_aux_neg (m : Z) (e : Z) (l : location) :
  SFltb (S754_zero false) (binary_round_aux prec emax true m e l) = false.
Proof.
  unfold binary_round_aux.
  destruct (shr_fexp prec emax m e l) as [mrs1 e1].
  destruct (shr_fexp prec emax _ e1 loc_Exact) as [mrs2 e2].
  destruct (shr_m mrs2); [reflexivity| |reflexivity].
  now destruct (e2 <=? emax - prec).
Qed.

Lemma binary_normalize_sign (D e : Z) :
  -1074 <= e ->
  SFltb (S754_zero false) (binary_normalize prec emax D e false) = (0 <? D).
Proof.
  intros He. destruct D as [|p|p]; cbn [binary_normalize]; unfold binary_round.
  - reflexivity.
  - destruct (shl_align p e _) as [mz ez] eqn:Hs.
    rewrite binary_round_aux_pos; [reflexivity|].
    revert Hs. unfold shl_align, fexp, SpecFloat.emin, prec, emax.
    destruct (_ - e) eqn:Hd; intros [= <- <-]; lia.
  - destruct (shl_align p e _) as [mz ez]. apply binary_round_aux_neg.
Qed.


(** The subtraction [y - x] is above zero exactly when [x < y]. *)
Lemma SF64sub_sign (x y : spec_float) :
  valid_binary x = true -> valid_binary y = true ->
  x <> S754_nan -> y <> S754_nan ->
  SFltb (S754_zero false) (SF64sub y x) = SFltb x y.
Proof.
  intros Vx Vy Nx Ny.
  destruct x as [sx|sx| |sx mx ex], y as [sy|sy| |sy my ey];
    try contradiction;
    try (destruct sx, sy; reflexivity); try (destruct sx; reflexivity);
    try (destruct sy; reflexivity).
  cbn [valid_binary] in Vx, Vy.
  unfold SF64sub, SFsub.
  pose proof (bounded_facts _ _ Vx) as Bx. pose proof (bounded_facts _ _ Vy) as By.
  rewrite binary_normalize_sign by lia.
  pose proof (aligned_compare mx my ex ey Vx Vy) as H. cbn zeta in H.
  rewrite (Z.min_comm ey ex).
  set (X := Zpos (fst (shl_align mx ex (Z.min ex ey)))) in *.
  set (Y := Zpos (fst (shl_align my ey (Z.min ex ey)))) in *.
  assert (HX : 0 < X) by (subst X; lia). assert (HY : 0 < Y) by (subst Y; lia).
  unfold SFltb, SFcompare.
  change (IntDef.Z.compare ex ey) with (ex ?= ey).
  change (PosDef.Pos.compare_cont Eq mx my) with (mx ?= my)%positive.
  pose proof (Pos.compare_spec mx my) as Hm.
  clearbody X Y.
  destruct sx, sy; cbn [cond_Zopp]; destruct (ex ?= ey); try lia;
    destruct H as [HX' HY']; destruct Hm; cbn [CompOpp]; lia.
Qed.

Lemma SFcompare_antisym (x y : spec_float) :
  SFcompare y x = option_map CompOpp (SFcompare x y).
Proof.
  destruct x as [sx|sx| |sx mx ex], y as [sy|sy| |sy my ey];
    try reflexivity;
    try (destruct sx, sy; reflexivity); try (destruct sx; reflexivity);
    try (destruct sy; reflexivity).
  unfold SFcompare.
  change (IntDef.Z.compare ey ex) with (ey ?= ex).
  change (IntDef.Z.compare ex ey) with (ex ?= ey).
  rewrite (Z.compare_antisym ex ey).
  change (PosDef.Pos.compare_cont Eq my mx) with (Pos.compare_cont Eq my mx).
  change (PosDef.Pos.compare_cont Eq mx my) with (Pos.compare_cont Eq mx my).
  rewrite (ZC4 my mx).
  destruct sx, sy, (ex ?= ey), (Pos.compare_cont Eq mx my); reflexivity.
Qed.

Lemma SFleb_trans (x y z : spec_float) :
  SFleb x y = true -> SFleb y z = true -> SFleb x z = true.
Proof.
  unfold SFleb.
  destruct x as [sx|sx| |sx mx ex], y as [sy|sy| |sy my ey], z as [sz|sz| |sz mz ez];
    cbn [SFcompare]; try discriminate; try reflexivity;
    try (destruct sx, sy, sz; trivial_case).
  all: try (destruct sx, sy; trivial_case).
  all: try (destruct sx, sz; trivial_case).
  all: try (destruct sy, sz; trivial_case).
  all: try (destruct sx; trivial_case).
  all: try (destruct sy; trivial_case).
  all: try (destruct sz; trivial_case).
  all: change (PosDef.Pos.compare_cont Eq mx my) with (mx ?= my)%positive;
    change (PosDef.Pos.compare_cont Eq my mz) with (my ?= mz)%positive;
    change (PosDef.Pos.compare_cont Eq mx mz) with (mx ?= mz)%positive;
    destruct (Z.compare_spec ex ey), (Z.compare_spec ey ez), (Z.compare_spec ex ez);
    try lia; try (intros; (discriminate || reflexivity));
    destruct (Pos.compare_spec mx my), (Pos.compare_spec my mz),
             (Pos.compare_spec mx mz);
    cbn [CompOpp]; intros; try discriminate; try reflexivity; lia.
Qed.

End Ordering.

Section FloatOrder.

Local Open Scope float_scope.

Lemma not_nan_spec (x : float) : is_nan x = false -> Prim2SF x <> S754_nan.
Proof.
  unfold is_nan. rewrite FloatAxioms.eqb_spec. intros H E. now rewrite E in H.
Qed.

Lemma sub_sign (x y : float) :
  is_nan x = false -> is_nan y = false -> (0 <? y - x) = (x <? y).
Proof.
  intros Hx%not_nan_spec Hy%not_nan_spec.
  rewrite !ltb_spec, sub_spec. change (Prim2SF 0) with (S754_zero false).
  apply SF64sub_sign; auto using Prim2SF_valid.
Qed.

Lemma ltb_leb (x y : float) : (x <? y) = true -> (x <=? y) = true.
Proof.
  rewrite ltb_spec, leb_spec. unfold SFltb, SFleb.
  now destruct (SFcompare (Prim2SF x) (Prim2SF y)) as [[]|].
Qed.

Lemma nltb_leb (x y : float) :
  is_nan x = false -> is_nan y = false -> (x <? y) = false -> (y <=? x) = true.
Proof.
  intros Hx%not_nan_spec Hy%not_nan_spec.
  rewrite ltb_spec, leb_spec. unfold SFltb, SFleb.
  rewrite (SFcompare_antisym (Prim2SF x) (Prim2SF y)).
  destruct (SFcompare (Prim2SF x) (Prim2SF y)) as [[]|] eqn:E; try easy.
  exfalso. destruct (Prim2SF x) as [sx|sx| |sx mx ex], (Prim2SF y) as [sy|sy| |sy my ey];
    try contradiction; try discriminate;
    destruct sx; discriminate.
Qed.

Lemma leb_trans (x y z : float) :
  (x <=? y) = true -> (y <=? z) = true -> (x <=? z) = true.
Proof. rewrite !leb_spec. apply SFleb_trans. Qed.

End FloatOrder.

(** ** The similarity engine *)

Section Cosine.

Local Open Scope float_scope.

Example cosine_same :
  cosine [Num 1; Num 0] [Num 1; Num 0] = 0x1.fffffff768fa0p-1.
Proof. reflexivity. Qed.

Example cosine_orthogonal : cosine [Num 1; Num 0] [Num 0; Num 1] = 0.
Proof. reflexivity. Qed.

(** The loop reads [b] only at the indices it visits. *)
Lemma cosine_body_ext (a b b' : vec) (idx : list nat) acc :
  (forall i, In i idx -> b !! i = b' !! i) ->
  fold_left (cosine_body a b) idx acc = fold_left (cosine_body a b') idx acc.
Proof.
  revert acc. induction idx as [|i idx IH]; intros acc Hb; [reflexivity|].
  cbn [fold_left]. rewrite IH by (intros; apply Hb; now right).
  f_equal. unfold cosine_body. destruct acc as [[dot na] nb].
  now rewrite (Hb i (or_introl eq_refl)).
Qed.

Lemma cosine_body_swap (a b : vec) (idx : list nat) acc :
  fold_left (cosine_body b a) idx (swap_norms acc)
  = swap_norms (fold_left (cosine_body a b) idx acc).
Proof.
  revert acc. induction idx as [|i idx IH]; intros acc; [reflexivity|].
  cbn [fold_left]. rewrite <- IH. f_equal.
  destruct acc as [[dot na] nb]. cbn.
  now rewrite (mul_comm (toNumber (b !! i)) (toNumber (a !! i))).
Qed.

Lemma sumsq_finite_back (a b : vec) (idx : list nat) acc :
  is_finite (sumsq (fold_left (cosine_body a b) idx acc)) = true ->
  is_finite (sumsq acc) = true.
Proof.
  revert acc. induction idx as [|i idx IH]; intros acc H; [exact H|].
  cbn [fold_left] in H. apply IH in H.
  destruct acc as [[dot na] nb]. cbn in H. now apply add_finite in H.
Qed.

Lemma zeros_loop (n : nat) (b : vec) (idx : list nat) (nb0 : float) :
  (forall i, In i idx -> (i < n)%nat) ->
  is_finite (sumsq (fold_left (cosine_body (zeros n) b) idx (0, 0, nb0))) = true ->
  exists nb, fold_left (cosine_body (zeros n) b) idx (0, 0, nb0) = (0, 0, nb).
Proof.
  revert nb0. induction idx as [|i idx IH]; intros nb0 Hi H; [now exists nb0|].
  cbn [fold_left] in *.
  assert (Ha : zeros n !! i = Some (Num 0)).
  { apply lookup_replicate_2. apply Hi. now left. }
  unfold cosine_body at 2 in H. unfold cosine_body at 2.
  rewrite Ha in *. cbn [toNumber] in *.
  pose proof (sumsq_finite_back _ _ _ _ H) as Hb. cbn in Hb.
  apply add_finite in Hb as [_ Hb]. apply square_finite in Hb.
  assert (E : 0 + 0 * toNumber (b !! i) = 0).
  { destruct (zero_mul_finite _ Hb) as [-> | ->]; reflexivity. }
  rewrite E in *. change (0 + 0 * 0) with 0 in *.
  apply IH; [|exact H]. intros j Hj. apply Hi. now right.
Qed.

End Cosine.

(** C4: for vectors [a] and [b] of equal length, [cosine a b] and
    [cosine b a] are the same binary64 value (both NaN when one is); when
    the value is a number, JavaScript's [==] holds between the two
    results. *)
Theorem cosine_comm (a b : vec) :
  length a = length b ->
  cosine a b = cosine b a /\
  (is_nan (cosine a b) = false -> (cosine a b =? cosine b a)%float = true).
Proof.
  intros Hlen.
  assert (E : cosine a b = cosine b a).
  { unfold cosine, cosine_sums. rewrite <- Hlen.
    change (0, 0, 0)%float with (swap_norms (0, 0, 0)%float) at 2.
    rewrite cosine_body_swap.
    destruct (fold_left (cosine_body a b) (seq 0 (length a)) (0, 0, 0)%float)
      as [[dot na] nb].
    cbn. now rewrite (mul_comm (sqrt nb) (sqrt na)). }
  split; [exact E|].
  rewrite <- E. unfold is_nan. now intros ->%negb_false_iff.
Qed.

Lemma cosine_comm_witness :
  cosine [Num 1; Num 2]%float [Num 3; Num 4]%float
  = cosine [Num 3; Num 4]%float [Num 1; Num 2]%float.
Proof.
  apply (cosine_comm [Num 1; Num 2]%float [Num 3; Num 4]%float). reflexivity.
Defined.

(** C10: the loop of [cosine] runs over the indices of [a] only.  When [b]
    is at least as long as [a], every read [b[i]] is in range, and the
    result is the one obtained with [b] cut to the length of [a]. *)
Theorem cosine_prefix (a b : vec) :
  length a <= length b ->
  (forall i, i < length a -> is_Some (b !! i)) /\
  cosine a b = cosine a (take (length a) b).
Proof.
  intros Hlen. split.
  - intros i Hi. apply lookup_lt_is_Some. lia.
  - unfold cosine, cosine_sums.
    rewrite (cosine_body_ext a b (take (length a) b)); [reflexivity|].
    intros i Hi%in_seq. symmetry. apply lookup_take_lt. lia.
Qed.

Lemma cosine_prefix_witness :
  cosine [Num 1; Num 2]%float [Num 3; Num 4; Num 5]%float
  = cosine [Num 1; Num 2]%float [Num 3; Num 4]%float.
Proof.
  apply (cosine_prefix [Num 1; Num 2]%float [Num 3; Num 4; Num 5]%float).
  cbn. lia.
Defined.

(** C5, as the code has it: whenever the norm of [b], as the loop computes
    it over the indices of the zero vector, is finite (the components read
    are numbers and the sum of their squares does not overflow), [cosine]
    of the zero vector and [b] is [+0]: the denominator is the epsilon and
    no division by zero occurs. *)
Theorem cosine_zero_finite (n : nat) (b : vec) :
  is_finite (sqrt (sumsq (cosine_sums (zeros n) b))) = true ->
  cosine (zeros n) b = 0%float /\ is_finite (cosine (zeros n) b) = true.
Proof.
  intros H.
  assert (E : cosine (zeros n) b = 0%float); [|now rewrite E].
  unfold cosine. unfold cosine_sums in *.
  assert (Hn : length (zeros n) = n) by apply length_replicate.
  rewrite Hn in *.
  destruct (zeros_loop n b (seq 0 n) 0%float) as [nb Hnb].
  - intros i Hi%in_seq. lia.
  - now apply sqrt_finite.
  - rewrite Hnb in *. cbn [sumsq snd] in H.
    change (sqrt 0) with 0%float.
    destruct (zero_mul_finite _ H) as [-> | ->]; reflexivity.
Qed.

Lemma cosine_zero_finite_witness :
  cosine (zeros 2) [Num 3; Num (-4)]%float = 0%float /\
  is_finite (cosine (zeros 2) [Num 3; Num (-4)]%float) = true.
Proof. apply (cosine_zero_finite 2 [Num 3; Num (-4)]%float). reflexivity. Defined.

(** C5, as stated, fails when the squared norm of [b] overflows: with
    [b = [2^600]] the norm is [Infinity], the denominator
    [0 * Infinity + 1e-9] is NaN, and so is the result. *)
Lemma cosine_zero_overflow :
  cosine (zeros 1) [Num 0x1p+600%float] = nan /\
  is_finite (cosine (zeros 1) [Num 0x1p+600%float]) = false.
Proof. split; reflexivity. Qed.

(** ** Persistence *)

Section Persistence.

Variable env : Env.

Lemma is_zero_cases (x : float) :
  is_zero x = true -> x = 0%float \/ x = (-0)%float.
Proof.
  unfold is_zero. rewrite FloatAxioms.eqb_spec.
  change (Prim2SF PrimFloat.zero) with (S754_zero false).
  intros H. rewrite <- (SF2Prim_Prim2SF x).
  destruct (Prim2SF x) as [s|s| |s m e]; try discriminate.
  - destruct s; [now right | now left].
  - now destruct s.
  - now destruct s.
Qed.

Lemma serializeElem_storable (e : elem) : storable e -> serializeElem e = e.
Proof.
  destruct e as [x|]; [|reflexivity]. intros [Hfin Hneg].
  unfold serializeElem. rewrite Hfin. destruct (is_zero x) eqn:Hz; [|reflexivity].
  destruct (is_zero_cases x Hz) as [-> | ->]; [reflexivity | contradiction].
Qed.

Lemma serializeDoc_storable (d : Doc) : storableDoc d -> serializeDoc d = d.
Proof.
  destruct d as [i t [v|] ts]; unfold storableDoc, serializeDoc; cbn; intros H;
    [|reflexivity].
  f_equal. f_equal. specialize (H v eq_refl).
  induction H as [|e v He Hv IH]; [reflexivity|].
  cbn. now rewrite serializeElem_storable, IH.
Qed.

Lemma save_then_load (w : World) :
  kb (snd (loadKB env (snd (saveKB w)))) = map serializeDoc (kb w).
Proof. reflexivity. Qed.

End Persistence.

(** C7: with no snapshot on disk, [loadKB] sets the store to exactly the
    two seed documents, ids [d1] and [d2] with the texts below, without
    embedding, each stamped with a reading of the clock taken during the
    load. *)
Theorem loadKB_seeds (env : Env) (w : World) :
  disk w = None ->
  fst (loadKB env w) = Ret tt /\
  kb (snd (loadKB env w)) =
    [ mkDoc (lit "d1")
        (lit "TinyLlama is a small language model optimized for fast inference on modest hardware.")
        None (toISOString env (clock env (ticks w)));
      mkDoc (lit "d2")
        (lit "React Native builds mobile apps using JavaScript and native widgets for iOS and Android.")
        None (toISOString env (clock env (S (ticks w)))) ].
Proof.
  intros Hdisk. unfold loadKB, bind, gets. rewrite Hdisk. split; reflexivity.
Qed.

Lemma loadKB_seeds_witness :
  map doc_id (kb (snd (loadKB env_up world0))) = [lit "d1"; lit "d2"].
Proof.
  destruct (loadKB_seeds env_up world0 eq_refl) as [_ ->]. reflexivity.
Defined.

(** C8, as the code has it: when every embedding element in the store is
    [null] or a finite number other than [-0], saving the store and
    loading it again gives the same sequence of documents, with every id,
    text, embedding (or its absence) and timestamp unchanged. *)
Theorem save_load_roundtrip (env : Env) (w : World) :
  Forall storableDoc (kb w) ->
  kb (snd (loadKB env (snd (saveKB w)))) = kb w.
Proof.
  intros H. rewrite save_then_load.
  induction H as [|d l Hd Hl IH]; [reflexivity|].
  cbn. now rewrite serializeDoc_storable, IH.
Qed.

Lemma save_load_roundtrip_witness :
  kb (snd (loadKB env_up (snd (saveKB (mkWorld [doc_seed; doc_x] None [] [] 0)))))
  = [doc_seed; doc_x].
Proof.
  apply (save_load_roundtrip env_up (mkWorld [doc_seed; doc_x] None [] [] 0)).
  repeat constructor; intros v Hv; inversion Hv; subst;
    repeat constructor; discriminate.
Defined.

(** C8, as stated, fails on a store holding an infinite embedding
    component: the snapshot holds [null] in its place, and so does the
    store after the reload. *)
Lemma save_load_infinity :
  let w := mkWorld [doc_inf] None [] [] 0 in
  kb (snd (loadKB env_up (snd (saveKB w))))
    = [mkDoc (lit "x") (lit "hello") (Some [Null]) (lit "2024-01-01T00:00:00.000Z")] /\
  kb (snd (loadKB env_up (snd (saveKB w)))) <> kb w.
Proof. split; [reflexivity | discriminate]. Qed.

(** ** Ingest *)

Section Ingest.

Variable env : Env.

Lemma answers_tail (n : nat) (t : jsstring) (texts : list jsstring) :
  answers env n (t :: texts) -> answers env (S n) texts.
Proof.
  intros H i u Hu. replace (S n + i) with (n + S i) by lia.
  apply H. exact Hu.
Qed.

Lemma accepted_cons (doc : Item) (docs : list Item) :
  accepted (doc :: docs) = if skipped doc then accepted docs else doc :: accepted docs.
Proof. unfold accepted. cbn. now destruct (skipped doc). Qed.

(** The loop over a concatenation runs the loop over the first part, then,
    unless that threw, the loop over the second. *)
Lemma ingestLoop_app (l1 l2 : list Item) (w : World) :
  ingestLoop env (l1 ++ l2) w =
  match ingestLoop env l1 w with
  | (Ret _, w1) => ingestLoop env l2 w1
  | (Throw message, w1) => (Throw message, w1)
  end.
Proof.
  revert w. induction l1 as [|doc l1 IH]; intros w; [reflexivity|].
  cbn [app ingestLoop]. destruct (skipped doc); [apply IH|].
  unfold bind, embedOne, isoNow, modify.
  destruct (embedding_service env _ _); [apply IH | reflexivity].
Qed.

(** A batch whose requests are all answered: the loop returns, having
    appended one document per accepted item and sent one request per
    accepted item; the disk is not touched. *)
Lemma ingestLoop_answered (docs : list Item) (w : World) :
  answers env (length (embed_log w)) (map textOf (accepted docs)) ->
  exists w1 new,
    ingestLoop env docs w = (Ret tt, w1) /\
    kb w1 = kb w ++ new /\ ingestedFrom docs new /\
    disk w1 = disk w /\
    embed_log w1 = embed_log w ++ map textOf (accepted docs).
Proof.
  revert w. induction docs as [|doc docs IH]; intros w Hans.
  - exists w, []. cbn. rewrite !app_nil_r. repeat split; constructor.
  - cbn [ingestLoop]. unfold ingestedFrom in *. rewrite accepted_cons in *.
    destruct (skipped doc) eqn:Hskip; [now apply IH|].
    cbn [map] in Hans.
    destruct (Hans 0 (textOf doc) eq_refl) as [v Hv].
    rewrite Nat.add_0_r in Hv.
    unfold bind at 1. unfold embedOne. rewrite Hv.
    unfold bind at 1. unfold isoNow.
    unfold bind at 1. unfold modify.
    set (d := mkDoc (idOf doc) (textOf doc) (Some v) _).
    set (w1 := set_kb _ _).
    destruct (IH w1) as (w2 & new & Hrun & Hkb & (Hid & Htext & Hemb) & Hdisk & Hlog).
    { subst w1. cbn. rewrite length_app. cbn.
      replace (length (embed_log w) + 1) with (S (length (embed_log w))) by lia.
      now apply answers_tail in Hans. }
    exists w2, (d :: new). rewrite Hrun, Hkb, Hdisk, Hlog. subst w1. cbn.
    rewrite <- !app_assoc. cbn.
    repeat split; try reflexivity.
    + now rewrite Hid.
    + now rewrite Htext.
    + constructor; [now exists v | exact Hemb].
Qed.

(** Whatever the services do, the loop only appends to the store, and
    leaves the disk alone. *)
Lemma ingestLoop_appends (docs : list Item) (w : World) :
  exists new, kb (snd (ingestLoop env docs w)) = kb w ++ new /\
              disk (snd (ingestLoop env docs w)) = disk w.
Proof.
  revert w. induction docs as [|doc docs IH]; intros w.
  - exists []. cbn. now rewrite app_nil_r.
  - cbn [ingestLoop]. destruct (skipped doc); [apply IH|].
    unfold bind, embedOne, isoNow, modify.
    destruct (embedding_service env _ _) as [v|message].
    + set (w1 := set_kb _ _). destruct (IH w1) as (new & Hkb & Hdisk).
      rewrite Hkb, Hdisk. subst w1. cbn. rewrite <- app_assoc. eauto.
    + exists []. cbn. now rewrite app_nil_r.
Qed.

End Ingest.

(** C3: when every request of the batch to the embedding service is
    answered, [POST /ingest] reports [added] equal to the length of the
    batch, skipped items included, while the store grows by the accepted
    items only. *)
Theorem ingest_added_count (env : Env) (docs : list Item) (w : World) :
  answers env (length (embed_log w)) (map textOf (accepted docs)) ->
  fst (ingest env (Some docs) w) = Added (length docs) /\
  length (kb (snd (ingest env (Some docs) w)))
    = length (kb w) + length (accepted docs).
Proof.
  intros Hans.
  destruct (ingestLoop_answered env docs w Hans)
    as (w1 & new & Hrun & Hkb & (Hid & _) & _).
  unfold ingest. change (default [] (Some docs)) with docs.
  unfold handle, bind, saveKB, modify, ret.
  rewrite Hrun. cbn. rewrite Hkb, length_app.
  split; [reflexivity|]. f_equal.
  erewrite <- length_map, Hid. apply length_map.
Qed.

Lemma ingest_added_count_witness :
  fst (ingest env_up (Some [item "a" "alpha"; mkItem None (Some (lit "beta")); item "c" "gamma"]) world0)
    = Added 3 /\
  length (kb (snd (ingest env_up (Some [item "a" "alpha"; mkItem None (Some (lit "beta")); item "c" "gamma"]) world0)))
    = 2.
Proof.
  apply (ingest_added_count env_up
           [item "a" "alpha"; mkItem None (Some (lit "beta")); item "c" "gamma"] world0).
  intros i t _. now exists [Num 1; Num 0; Num 0]%float.
Defined.

(** The scenario of the specification: one item into the empty store. *)
Example ingest_one :
  ingest env_up (Some [item "x" "hello"]) world0
  = (Added 1, mkWorld [doc_x] (Some [doc_x]) [lit "hello"] [] 1).
Proof. reflexivity. Qed.

(** C2: when the embedding service answers the requests of the items
    before item N and fails on item N, [POST /ingest] responds 500 with the
    failure message; the documents of the accepted items before item N are
    appended to the in-memory store, no request is made for an item after
    item N (the last request sent is the one for item N), and the snapshot
    on disk is the one from before the request. *)
Theorem ingest_failure (env : Env) (pre post : list Item) (bad : Item)
    (message : jsstring) (w : World) :
  answers env (length (embed_log w)) (map textOf (accepted pre)) ->
  skipped bad = false ->
  embedding_service env (length (embed_log w) + length (accepted pre)) (textOf bad)
    = Failure message ->
  exists w' new,
    ingest env (Some (pre ++ bad :: post)) w = (Error 500 message, w') /\
    kb w' = kb w ++ new /\ ingestedFrom pre new /\
    embed_log w' = embed_log w ++ map textOf (accepted pre) ++ [textOf bad] /\
    disk w' = disk w.
Proof.
  intros Hans Hbad Hfail.
  destruct (ingestLoop_answered env pre w Hans)
    as (w1 & new & Hrun & Hkb & Hnew & Hdisk & Hlog).
  exists (set_embed_log (embed_log w1 ++ [textOf bad]) w1), new.
  unfold ingest.
  change (default [] (Some (pre ++ bad :: post))) with (pre ++ bad :: post).
  unfold handle. unfold bind at 1.
  rewrite ingestLoop_app, Hrun. cbn [ingestLoop]. rewrite Hbad.
  unfold bind at 1. unfold embedOne.
  rewrite Hlog, length_app, length_map, Hfail. cbn.
  rewrite <- app_assoc. repeat split; try assumption; apply Hnew.
Qed.

Lemma ingest_failure_witness :
  exists w' new,
    ingest env_second_fails
      (Some ([item "a" "alpha"] ++ item "b" "beta" :: [item "c" "gamma"])) world0
      = (Error 500 (lit "connect ECONNREFUSED"), w') /\
    kb w' = kb world0 ++ new /\ ingestedFrom [item "a" "alpha"] new /\
    embed_log w' = embed_log world0 ++ map textOf (accepted [item "a" "alpha"])
                     ++ [textOf (item "b" "beta")] /\
    disk w' = disk world0.
Proof.
  apply (ingest_failure env_second_fails [item "a" "alpha"] [item "c" "gamma"]
           (item "b" "beta") (lit "connect ECONNREFUSED") world0).
  - intros [|i] t Ht; [now exists [Num 1; Num 0]%float | discriminate].
  - reflexivity.
  - reflexivity.
Defined.

(** ** Blank queries *)

Section Blank.

Lemma trimStart_whitespace (s : jsstring) :
  Forall (fun c => isWhiteSpace c = true) s -> trimStart s = [].
Proof.
  induction 1 as [|c s Hc Hs IH]; [reflexivity|].
  cbn [trimStart]. now rewrite Hc.
Qed.

Lemma trim_whitespace (s : jsstring) :
  Forall (fun c => isWhiteSpace c = true) s -> trim s = [].
Proof. intros H. unfold trim. now rewrite (trimStart_whitespace s H). Qed.

Example trim_inner_space : trim (lit "  a b ") = lit "a b".
Proof. reflexivity. Qed.

Example blank_tab_nbsp : blank (Some [9; 160; 32]%N) = true.
Proof. reflexivity. Qed.

Example blank_word : blank (Some (lit " hi ")) = false.
Proof. reflexivity. Qed.

End Blank.

(** C6: a [POST /chat] request whose query is missing, or is a string of
    white space only (the empty string included), is answered with status
    400 and the error [query is required]; nothing changes: neither the
    store nor the disk, and no service is called. *)
Theorem chat_blank_query (env : Env) (query : option jsstring)
    (topK : option Z) (w : World) :
  query = None \/
  (exists s, query = Some s /\ Forall (fun c => isWhiteSpace c = true) s) ->
  chat env query topK w = (Error 400 (lit "query is required"), w).
Proof.
  intros Hq.
  assert (Hblank : blank query = true).
  { destruct Hq as [-> | (s & -> & Hs)]; [reflexivity|].
    unfold blank. cbn [option_map]. rewrite (trim_whitespace s Hs).
    apply orb_true_r. }
  unfold chat, handle. now rewrite Hblank.
Qed.

Lemma chat_blank_query_witness :
  chat env_up (Some [32; 9; 10; 160]%N) (Some 2%Z) world0
  = (Error 400 (lit "query is required"), world0).
Proof.
  apply (chat_blank_query env_up (Some [32; 9; 10; 160]%N) (Some 2%Z) world0).
  right. exists [32; 9; 10; 160]%N. split; [reflexivity|].
  repeat constructor.
Defined.

(** ** What the requests do to the stored documents *)

Section Immutability.

Variable env : Env.

Lemma sameDocument_refl (d : Doc) : sameDocument d d.
Proof. repeat split; now left. Qed.

Lemma sameDocument_trans (d0 d1 d2 : Doc) :
  sameDocument d0 d1 -> sameDocument d1 d2 -> sameDocument d0 d2.
Proof.
  intros (Hi1 & Ht1 & Hs1 & He1) (Hi2 & Ht2 & Hs2 & He2).
  repeat split; try congruence.
  destruct He1 as [E1 | [N1 S1]], He2 as [E2 | [N2 S2]].
  - left. congruence.
  - right. split; [congruence | exact S2].
  - right. split; [exact N1 | now rewrite E2].
  - rewrite N2 in S1. now destruct S1.
Qed.

(** [POST /chat] never writes to the store. *)
Lemma chat_kb (query : option jsstring) (topK : option Z) (w : World) :
  kb (snd (chat env query topK w)) = kb w.
Proof.
  unfold chat, handle. destruct (blank query); [reflexivity|].
  unfold bind, embedOne, gets, lift, dateNow, generate, ret.
  destruct (embedding_service env _ _) as [qemb|message]; [|reflexivity].
  cbn. destruct (rank qemb topK (kb w)) as [ranked|message]; [|reflexivity].
  cbn. destruct (generation_service env _ _); reflexivity.
Qed.

(** [POST /ingest] only appends to it. *)
Lemma ingest_kb (documents : option (list Item)) (w : World) :
  exists new, kb (snd (ingest env documents w)) = kb w ++ new.
Proof.
  unfold ingest, handle. unfold bind at 1.
  destruct (ingestLoop_appends env (default [] documents) w) as (new & Hkb & _).
  exists new. rewrite <- Hkb.
  destruct (ingestLoop env (default [] documents) w) as [[[]|message] w1];
    reflexivity.
Qed.

(** The backfill loop, run over distinct indices of documents that lack an
    embedding, gives each of them at most one embedding and changes
    nothing else. *)
Lemma backfill_preserved (idx : list nat) (w : World) :
  List.NoDup idx ->
  (forall j d, In j idx -> kb w !! j = Some d -> doc_embedding d = None) ->
  preserved (kb w) (kb (snd (backfill env idx w))).
Proof.
  revert w. induction idx as [|i rest IH]; intros w Hnd Hnone j d Hj.
  - exists d. split; [exact Hj | apply sameDocument_refl].
  - inversion Hnd as [|? ? Hi Hrest]; subst.
    cbn [backfill]. unfold bind at 1. unfold gets.
    destruct (kb w !! i) as [d0|] eqn:Hd0.
    2:{ apply IH; [exact Hrest | | exact Hj].
        intros k dk Hk Hdk. apply (Hnone k dk); [now right | exact Hdk]. }
    unfold bind at 1. unfold embedOne.
    destruct (embedding_service env _ _) as [v|message].
    2:{ exists d. split; [exact Hj | apply sameDocument_refl]. }
    unfold bind at 1. unfold modify.
    set (w1 := set_kb _ _).
    assert (Hkb1 : kb w1 = <[ i := mkDoc (doc_id d0) (doc_text d0) (Some v) (doc_timestamp d0) ]> (kb w)).
    { subst w1. cbn. unfold assignEmbedding. now rewrite Hd0. }
    assert (IH1 : preserved (kb w1) (kb (snd (backfill env rest w1)))).
    { apply IH; [exact Hrest|]. intros k dk Hk Hdk.
      rewrite Hkb1, list_lookup_insert_ne in Hdk by (intros ->; contradiction).
      apply (Hnone k dk); [now right | exact Hdk]. }
    destruct (decide (j = i)) as [->|Hne].
    + assert (d = d0) by congruence. subst d0.
      destruct (IH1 i (mkDoc (doc_id d) (doc_text d) (Some v) (doc_timestamp d)))
        as (d' & Hd' & Hsame).
      { rewrite Hkb1. apply list_lookup_insert_eq. now apply lookup_lt_Some in Hj. }
      exists d'. split; [exact Hd'|].
      eapply sameDocument_trans; [|exact Hsame].
      repeat split. right. split; [|now exists v].
      apply (Hnone i d); [now left | exact Hj].
    + apply IH1. rewrite Hkb1, list_lookup_insert_ne by congruence. exact Hj.
Qed.

Lemma toEmbed_NoDup (docs : list Doc) : List.NoDup (toEmbed docs).
Proof. apply List.NoDup_filter, List.seq_NoDup. Qed.

Lemma toEmbed_lacks (docs : list Doc) (j : nat) (d : Doc) :
  In j (toEmbed docs) -> docs !! j = Some d -> doc_embedding d = None.
Proof.
  unfold toEmbed. rewrite List.filter_In. intros [_ H] Hd. rewrite Hd in H.
  unfold lacksEmbedding in H. now destruct (doc_embedding d).
Qed.

Lemma ensureEmbeddings_preserved (w : World) :
  preserved (kb w) (kb (snd (ensureEmbeddings env w))).
Proof.
  pose proof (backfill_preserved (toEmbed (kb w)) w (toEmbed_NoDup _)
                (fun j d => toEmbed_lacks (kb w) j d)) as H.
  unfold ensureEmbeddings, bind, gets, saveKB, modify.
  destruct (backfill env (toEmbed (kb w)) w) as [[[]|message] w1]; exact H.
Qed.

(** One request. *)
Lemma step_preserved (op : Op) (w : World) (i : nat) (d : Doc) :
  kb w !! i = Some d ->
  exists d', kb (step env op w) !! i = Some d' /\
    sameDocument d d' /\
    (doc_embedding d' = doc_embedding d \/ op = OpBackfill).
Proof.
  intros Hd. destruct op as [|documents|query topK]; cbn [step].
  - destruct (ensureEmbeddings_preserved w i d Hd) as (d' & Hd' & Hsame).
    exists d'. repeat split; try apply Hsame; auto.
  - destruct (ingest_kb documents w) as [new ->].
    exists d. repeat split; auto.
    rewrite lookup_app_l; [exact Hd | now apply lookup_lt_Some in Hd].
  - rewrite chat_kb. exists d. repeat split; auto.
Qed.

End Immutability.

(** C9: a document in the store keeps its id, its text and its timestamp
    through any sequence of backfills, ingests and chat queries, at the
    same position; its embedding is unchanged too, unless it was absent,
    in which case it may have become present, and only when a backfill is
    among the requests. *)
Theorem documents_immutable (env : Env) (ops : list Op) (w : World)
    (i : nat) (d : Doc) :
  kb w !! i = Some d ->
  exists d', kb (run env ops w) !! i = Some d' /\
    doc_id d' = doc_id d /\ doc_text d' = doc_text d /\
    doc_timestamp d' = doc_timestamp d /\
    (doc_embedding d' = doc_embedding d \/
     (doc_embedding d = None /\ is_Some (doc_embedding d') /\ In OpBackfill ops)).
Proof.
  revert w d. induction ops as [|op ops IH]; intros w d Hd.
  - exists d. cbn. repeat split; auto.
  - destruct (step_preserved env op w i d Hd) as (d1 & Hd1 & Hsame1 & Hop).
    destruct (IH (step env op w) d1 Hd1) as (d' & Hd' & Hi & Ht & Hs & He).
    destruct Hsame1 as (Hi1 & Ht1 & Hs1 & He1).
    exists d'. unfold run in *. cbn [fold_left].
    repeat split; try congruence.
    destruct He as [E | (N & S & Hin)].
    + destruct Hop as [E1 | ->].
      * left. congruence.
      * destruct He1 as [E1 | [N1 S1]]; [left; congruence|].
        right. repeat split; [exact N1 | now rewrite E | now left].
    + destruct He1 as [E1 | [N1 S1]].
      * right. repeat split; [congruence | exact S | now right].
      * rewrite N in S1. now destruct S1.
Qed.

Lemma documents_immutable_witness :
  exists d', kb (run env_up [OpBackfill; OpIngest (Some [item "a" "alpha"]);
                            OpChat (Some (lit "what")) None]
                   (mkWorld [doc_seed] None [] [] 0)) !! 0 = Some d' /\
    doc_id d' = doc_id doc_seed /\ doc_text d' = doc_text doc_seed /\
    doc_timestamp d' = doc_timestamp doc_seed /\
    (doc_embedding d' = doc_embedding doc_seed \/
     (doc_embedding doc_seed = None /\ is_Some (doc_embedding d') /\
      In OpBackfill [OpBackfill; OpIngest (Some [item "a" "alpha"]);
                     OpChat (Some (lit "what")) None])).
Proof.
  apply (documents_immutable env_up
           [OpBackfill; OpIngest (Some [item "a" "alpha"]);
            OpChat (Some (lit "what")) None]
           (mkWorld [doc_seed] None [] [] 0) 0 doc_seed).
  reflexivity.
Defined.

(** ** Ranking *)

Section Ranking.

Lemma insert_perm (x : Scored) (l : list Scored) : Permutation (insert x l) (x :: l).
Proof.
  induction l as [|y l IH]; [reflexivity|].
  cbn [insert]. destruct (0 <? compareFn x y)%float; [|reflexivity].
  rewrite IH. apply perm_swap.
Qed.

Lemma sort_perm (l : list Scored) : Permutation (sort l) l.
Proof.
  induction l as [|x l IH]; [reflexivity|].
  cbn [sort]. rewrite insert_perm. now constructor.
Qed.

Lemma insert_sorted (x : Scored) (l : list Scored) :
  is_nan (score x) = false -> numeric l ->
  Sorted notAbove l -> Sorted notAbove (insert x l).
Proof.
  intros Hx Hl Hs. induction Hs as [|y l Hs IH Hhd].
  - repeat constructor.
  - inversion Hl as [|? ? Hy Hl']; subst. cbn [insert]. unfold compareFn.
    rewrite (sub_sign (score x) (score y) Hx Hy).
    destruct (score x <? score y)%float eqn:Hlt.
    + constructor; [now apply IH|].
      destruct l as [|z l]; cbn [insert].
      * constructor. now apply ltb_leb.
      * destruct (0 <? compareFn x z)%float; constructor.
        -- now inversion Hhd.
        -- now apply ltb_leb.
    + constructor; [now constructor|]. constructor. now apply nltb_leb.
Qed.

Lemma sort_sorted (l : list Scored) : numeric l -> Sorted notAbove (sort l).
Proof.
  induction 1 as [|x l Hx Hl IH]; [constructor|].
  cbn [sort]. apply insert_sorted; [exact Hx | | exact IH].
  unfold numeric. now rewrite (sort_perm l).
Qed.

Lemma notAbove_trans : Relations_1.Transitive notAbove.
Proof. intros x y z Hxy Hyz. exact (leb_trans _ _ _ Hyz Hxy). Qed.

Lemma sort_descending (l : list Scored) : numeric l -> descending (sort l).
Proof.
  intros H. apply Sorted_StronglySorted; [exact notAbove_trans|].
  now apply sort_sorted.
Qed.

Lemma descending_take (n : nat) (l : list Scored) :
  descending l -> descending (take n l).
Proof.
  intros Hs. revert n. induction Hs as [|x l Hs IH Hall]; intros [|n];
    try (cbn; constructor); [apply IH|].
  apply Forall_take. exact Hall.
Qed.

Lemma slice0_take {A} (l : list A) (e : Z) :
  (0 <= e)%Z -> slice0 l e = take (Z.to_nat e) l.
Proof.
  intros He. unfold slice0. destruct (Z.ltb_spec e 0); [lia|].
  destruct (Z.le_ge_cases e (Z.of_nat (length l))).
  - now rewrite Z.min_l.
  - rewrite Z.min_r, Nat2Z.id, firstn_all by lia.
    symmetry. apply take_ge. lia.
Qed.

(** With every document scorable, [kb.map(...)] returns one scored
    candidate per document, in order. *)
Lemma scoreAll_scorable (qemb : vec) (docs : list Doc) :
  Forall (scorable qemb) docs ->
  exists scored, scoreAll qemb docs = Ret scored /\
    map scored_doc scored = docs /\ numeric scored /\
    Forall (fun x => cosineOf qemb (doc_embedding (scored_doc x)) = Ret (score x)) scored.
Proof.
  induction 1 as [|d docs (s & Hs & Hnan) Hdocs (scored & Hrun & Hmap & Hnum & Hsc)].
  - exists []. repeat split; constructor.
  - exists (mkScored d s :: scored).
    cbn [scoreAll]. rewrite Hs, Hrun. cbn.
    repeat split; [now rewrite Hmap | now constructor |].
    constructor; [exact Hs | exact Hsc].
Qed.

End Ranking.

(** C1, as the code has it: when the score of every document of the corpus
    is computed and is not NaN, and [topK] is absent or a non-negative
    integer, [rank] returns candidates, [min(topK, corpus size)] of them,
    ordered from the highest score to the lowest; they are the first
    [topK] of the whole corpus so ordered, each with the cosine of the
    query and its embedding for score.  An absent [topK] counts as 3,
    [topK = 0] gives the empty sequence, and [topK] at least the corpus
    size gives the whole corpus. *)
Theorem rank_topK (qemb : vec) (topK : option Z) (docs : list Doc) :
  (0 <= topKOf topK)%Z ->
  Forall (scorable qemb) docs ->
  exists ranked all,
    rank qemb topK docs = Ret ranked /\
    length ranked = Nat.min (Z.to_nat (topKOf topK)) (length docs) /\
    descending ranked /\
    ranked = take (Z.to_nat (topKOf topK)) all /\
    descending all /\ Permutation (map scored_doc all) docs /\
    Forall (fun x => cosineOf qemb (doc_embedding (scored_doc x)) = Ret (score x)) all /\
    rank qemb None docs = rank qemb (Some 3%Z) docs /\
    (topKOf topK = 0%Z -> ranked = []) /\
    ((Z.of_nat (length docs) <= topKOf topK)%Z ->
       Permutation (map scored_doc ranked) docs).
Proof.
  intros Hk Hdocs.
  destruct (scoreAll_scorable qemb docs Hdocs) as (scored & Hrun & Hmap & Hnum & Hsc).
  pose proof (sort_perm scored) as Hperm.
  assert (Hall : Permutation (map scored_doc (sort scored)) docs).
  { rewrite <- Hmap. now apply Permutation_map. }
  assert (Hlen : length (sort scored) = length docs).
  { rewrite <- Hmap, length_map. now apply Permutation_length. }
  exists (slice0 (sort scored) (topKOf topK)), (sort scored).
  unfold rank at 1. rewrite Hrun, (slice0_take _ _ Hk).
  repeat split.
  - rewrite length_take, Hlen. reflexivity.
  - apply descending_take, sort_descending, Hnum.
  - apply sort_descending, Hnum.
  - exact Hall.
  - now rewrite Hperm.
  - intros ->. reflexivity.
  - intros Hge. rewrite take_ge by lia. exact Hall.
Qed.

Lemma rank_topK_witness :
  exists ranked all,
    rank [Num 1; Num 0]%float (Some 1%Z) [doc_b; doc_a] = Ret ranked /\
    length ranked = Nat.min (Z.to_nat (topKOf (Some 1%Z))) (length [doc_b; doc_a]) /\
    descending ranked /\
    ranked = take (Z.to_nat (topKOf (Some 1%Z))) all /\
    descending all /\ Permutation (map scored_doc all) [doc_b; doc_a] /\
    Forall (fun x => cosineOf [Num 1; Num 0]%float (doc_embedding (scored_doc x))
                     = Ret (score x)) all /\
    rank [Num 1; Num 0]%float None [doc_b; doc_a]
      = rank [Num 1; Num 0]%float (Some 3%Z) [doc_b; doc_a] /\
    (topKOf (Some 1%Z) = 0%Z -> ranked = []) /\
    ((Z.of_nat (length [doc_b; doc_a]) <= topKOf (Some 1%Z))%Z ->
       Permutation (map scored_doc ranked) [doc_b; doc_a]).
Proof.
  apply (rank_topK [Num 1; Num 0]%float (Some 1%Z) [doc_b; doc_a]).
  - cbn. lia.
  - repeat constructor.
    + exists 0%float. split; reflexivity.
    + exists 0x1.fffffff768fa0p-1%float. split; reflexivity.
Defined.

Example rank_best_first :
  rank [Num 1; Num 0]%float (Some 1%Z) [doc_b; doc_a]
  = Ret [mkScored doc_a 0x1.fffffff768fa0p-1%float].
Proof. reflexivity. Qed.

(** C1, as stated, fails in three ways.  A negative [topK] counts from the
    end of the sorted corpus: [topK = -1] on two documents returns one
    candidate, not none.  A document without embedding makes the ranking
    throw when the query vector is not empty.  A NaN score is not ordered:
    it stays where the document was, here before a score of [0]. *)
Lemma rank_as_stated_fails :
  rank [Num 1; Num 0]%float (Some (-1)%Z) [doc_a; doc_b]
    = Ret [mkScored doc_a 0x1.fffffff768fa0p-1%float] /\
  rank [Num 1; Num 0]%float (Some 1%Z) [doc_seed] = Throw typeError /\
  rank [Num 0x1p+600%float] None [doc_big; doc_one]
    = Ret [mkScored doc_big nan; mkScored doc_one 0%float] /\
  (0 <=? nan)%float = false.
Proof. repeat split; reflexivity. Qed.

(** * Part III: further properties of the code *)

(** ** NaN in the similarity *)

Section NaN.

Local Open Scope float_scope.

Lemma mul_nan_r (x : float) : x * nan = nan.
Proof.
  apply Prim2SF_inj. rewrite mul_spec.
  change (Prim2SF nan) with S754_nan. now destruct (Prim2SF x).
Qed.

Lemma add_nan_r (x : float) : x + nan = nan.
Proof.
  apply Prim2SF_inj. rewrite add_spec.
  change (Prim2SF nan) with S754_nan. now destruct (Prim2SF x).
Qed.

Lemma add_nan_l (x : float) : nan + x = nan.
Proof.
  apply Prim2SF_inj. rewrite add_spec.
  change (Prim2SF nan) with S754_nan. reflexivity.
Qed.

Lemma div_nan_l (x : float) : nan / x = nan.
Proof.
  apply Prim2SF_inj. rewrite div_spec.
  change (Prim2SF nan) with S754_nan. reflexivity.
Qed.

(** Once the dot product is NaN it stays NaN. *)
Lemma cosine_body_nan (a b : vec) (idx : list nat) (na nb : float) :
  exists na' nb', fold_left (cosine_body a b) idx (nan, na, nb) = (nan, na', nb').
Proof.
  revert na nb. induction idx as [|i idx IH]; intros na nb; [now eauto|].
  cbn [fold_left cosine_body]. rewrite add_nan_l. apply IH.
Qed.

End NaN.

(** X1: when [b] is shorter than [a], the loop reads [b] past its end, the
    value read is [undefined], and the result of [cosine] is NaN whatever
    the components are. *)
Theorem cosine_short_nan (a b : vec) :
  length b < length a -> cosine a b = nan.
Proof.
  intros Hlen. unfold cosine, cosine_sums.
  replace (length a) with (length b + S (length a - S (length b))) by lia.
  rewrite seq_app, fold_left_app. change (0 + length b) with (length b).
  cbn [seq fold_left].
  destruct (fold_left (cosine_body a b) (seq 0 (length b)) (0, 0, 0)%float)
    as [[dot na] nb].
  assert (E : b !! length b = None) by (apply lookup_ge_None_2; lia).
  cbn [cosine_body]. rewrite E.
  cbn [toNumber]. rewrite mul_nan_r, add_nan_r.
  match goal with
  | |- context [fold_left _ ?idx (nan, ?x, ?y)] =>
      destruct (cosine_body_nan a b idx x y) as (na' & nb' & ->)
  end.
  apply div_nan_l.
Qed.

Lemma cosine_short_nan_witness :
  cosine [Num 1; Num 2]%float [Num 3]%float = nan.
Proof. apply (cosine_short_nan [Num 1; Num 2]%float [Num 3]%float). cbn. lia. Defined.

(** ** More on persistence *)

Section MorePersistence.

Variable env : Env.

Lemma serializeElem_idem (e : elem) :
  serializeElem (serializeElem e) = serializeElem e.
Proof.
  destruct e as [x|]; [|reflexivity]. unfold serializeElem.
  destruct (is_finite x) eqn:Hfin; [|reflexivity].
  destruct (is_zero x) eqn:Hz; [reflexivity|].
  now rewrite Hfin, Hz.
Qed.

Lemma serializeDoc_idem (d : Doc) : serializeDoc (serializeDoc d) = serializeDoc d.
Proof.
  destruct d as [i t [v|] ts]; unfold serializeDoc; cbn; [|reflexivity].
  f_equal. f_equal. rewrite map_map. apply map_ext. apply serializeElem_idem.
Qed.

Lemma roundTrip_kb (w : World) : kb (roundTrip env w) = map serializeDoc (kb w).
Proof. reflexivity. Qed.

Lemma entryOf_serializeDoc (d : Doc) : entryOf (serializeDoc d) = entryOf d.
Proof. reflexivity. Qed.

Lemma serializeDoc_shape (d : Doc) :
  option_map (@length elem) (doc_embedding (serializeDoc d))
  = option_map (@length elem) (doc_embedding d).
Proof. destruct d as [i t [v|] ts]; cbn; [|reflexivity]. now rewrite length_map. Qed.

End MorePersistence.

(** X2: saving and loading is idempotent on every store: the store obtained
    by one save and load is unchanged by a second one, also when it held
    components that the snapshot cannot represent. *)
Theorem roundTrip_idempotent (env : Env) (w : World) :
  kb (roundTrip env (roundTrip env w)) = kb (roundTrip env w).
Proof.
  rewrite !roundTrip_kb, map_map. apply map_ext. apply serializeDoc_idem.
Qed.

(** X3: saving and loading never loses or reorders a document and never
    changes an id, a text or a timestamp, for every store: the listing of
    [GET /kb] is the same after the reload; a document has an embedding
    after it exactly when it had one before, of the same length. *)
Theorem roundTrip_keeps_entries (env : Env) (w : World) :
  fst (listKB (roundTrip env w)) = fst (listKB w) /\
  map (fun d => option_map (@length elem) (doc_embedding d)) (kb (roundTrip env w))
  = map (fun d => option_map (@length elem) (doc_embedding d)) (kb w).
Proof.
  unfold listKB, bind, gets, ret. cbn [fst]. rewrite roundTrip_kb, !map_map.
  split.
  - reflexivity.
  - apply map_ext. intros d. apply serializeDoc_shape.
Qed.

(** ** Configuration *)

Section Configuration.

Lemma startsWith_app (p s : jsstring) : startsWith p (p ++ s) = true.
Proof.
  induction p as [|c p IH]; [reflexivity|].
  cbn. now rewrite N.eqb_refl, IH.
Qed.

End Configuration.

(** X4: the base URL computed from [OLLAMA_HOST] always starts with
    [http], whether the variable is missing, empty or set; a value that
    already starts with [http] is kept as it is, so computing the URL from
    a computed URL changes nothing. *)
Theorem ollamaOf_http (host : option jsstring) :
  startsWith (lit "http") (ollamaOf host) = true /\
  ollamaOf (Some (ollamaOf host)) = ollamaOf host.
Proof.
  assert (H : startsWith (lit "http") (ollamaOf host) = true).
  { destruct host as [h|]; [|reflexivity]. unfold ollamaOf.
    destruct (startsWith (lit "http") h) eqn:Hh; [exact Hh|].
    change (lit "http://") with (lit "http" ++ lit "://").
    rewrite <- app_assoc. apply startsWith_app. }
  split; [exact H|]. unfold ollamaOf at 1. now rewrite H.
Qed.

Example ollamaOf_bare : ollamaOf (Some (lit "127.0.0.1:11434")) = lit "http://127.0.0.1:11434".
Proof. reflexivity. Qed.

Example ollamaOf_missing : ollamaOf None = lit "http://undefined".
Proof. reflexivity. Qed.

(** ** Backfill and startup *)

Section MoreBackfill.

Variable env : Env.

Lemma assignEmbedding_insert (i : nat) (v : vec) (docs : list Doc) (d : Doc) :
  docs !! i = Some d ->
  assignEmbedding i v docs
  = <[ i := mkDoc (doc_id d) (doc_text d) (Some v) (doc_timestamp d) ]> docs.
Proof. intros H. unfold assignEmbedding. now rewrite H. Qed.

Lemma textAt_insert (i j : nat) (v : vec) (docs : list Doc) (d : Doc) :
  docs !! i = Some d ->
  textAt (<[ i := mkDoc (doc_id d) (doc_text d) (Some v) (doc_timestamp d) ]> docs) j
  = textAt docs j.
Proof.
  intros Hd. unfold textAt. destruct (decide (j = i)) as [->|Hne].
  - rewrite list_lookup_insert_eq by (now apply lookup_lt_Some in Hd).
    now rewrite Hd.
  - now rewrite list_lookup_insert_ne by congruence.
Qed.

Lemma backfill_app (idx1 idx2 : list nat) (w : World) :
  backfill env (idx1 ++ idx2) w =
  match backfill env idx1 w with
  | (Ret _, w1) => backfill env idx2 w1
  | (Throw message, w1) => (Throw message, w1)
  end.
Proof.
  revert w. induction idx1 as [|i idx1 IH]; intros w; [reflexivity|].
  cbn [app backfill]. unfold bind, gets, embedOne, modify.
  destruct (kb w !! i) as [d|]; [|apply IH].
  destruct (embedding_service env _ _); [apply IH | reflexivity].
Qed.

(** The loop over distinct indices of the store, all requests answered:
    the document at the k-th index gets the answer to the k-th request,
    the other documents are not touched, and neither is the disk. *)
Lemma backfill_answered (idx : list nat) (w : World) :
  List.NoDup idx ->
  (forall i, In i idx -> i < length (kb w)) ->
  answers env (length (embed_log w)) (map (textAt (kb w)) idx) ->
  exists w1,
    backfill env idx w = (Ret tt, w1) /\
    disk w1 = disk w /\
    embed_log w1 = embed_log w ++ map (textAt (kb w)) idx /\
    (forall j, ~ In j idx -> kb w1 !! j = kb w !! j) /\
    (forall k i, idx !! k = Some i ->
       exists d v, kb w !! i = Some d /\
         embedding_service env (length (embed_log w) + k) (doc_text d) = Reply v /\
         kb w1 !! i = Some (mkDoc (doc_id d) (doc_text d) (Some v) (doc_timestamp d))).
Proof.
  revert w. induction idx as [|i rest IH]; intros w Hnd Hlt Hans.
  - exists w. cbn. rewrite app_nil_r. repeat split; auto. intros k i Hk. discriminate.
  - inversion Hnd as [|? ? Hi Hrest]; subst.
    destruct (lookup_lt_is_Some_2 (kb w) i (Hlt i (or_introl eq_refl))) as [d Hd].
    destruct (Hans 0 (textAt (kb w) i) eq_refl) as [v Hv].
    rewrite Nat.add_0_r in Hv. unfold textAt in Hv. rewrite Hd in Hv. cbn in Hv.
    cbn [backfill]. unfold bind at 1. unfold gets. rewrite Hd.
    unfold bind at 1. unfold embedOne. rewrite Hv.
    unfold bind at 1. unfold modify.
    set (w' := set_kb _ _).
    assert (Hkb' : kb w' = <[ i := mkDoc (doc_id d) (doc_text d) (Some v) (doc_timestamp d) ]> (kb w)).
    { subst w'. cbn. now apply assignEmbedding_insert. }
    assert (Hlog' : embed_log w' = embed_log w ++ [doc_text d]) by reflexivity.
    assert (Hdisk' : disk w' = disk w) by reflexivity.
    clearbody w'.
    assert (Htexts : map (textAt (kb w')) rest = map (textAt (kb w)) rest).
    { apply map_ext. intros j. rewrite Hkb'. now apply textAt_insert. }
    assert (Ht : textAt (kb w) i = doc_text d) by (unfold textAt; now rewrite Hd).
    destruct (IH w') as (w1 & Hrun & Hdisk & Hlog & Hout & Hin).
    { exact Hrest. }
    { intros j Hj. rewrite Hkb', length_insert. apply Hlt. now right. }
    { rewrite Htexts, Hlog', length_app. cbn.
      replace (length (embed_log w) + 1) with (S (length (embed_log w))) by lia.
      exact (answers_tail env _ _ _ Hans). }
    exists w1. rewrite Hrun, Hdisk, Hdisk', Hlog, Hlog', Htexts, <- app_assoc.
    cbn [map app]. rewrite Ht.
    repeat split; try reflexivity.
    + intros j Hj. rewrite Hout by (intros Hj'; apply Hj; now right).
      rewrite Hkb'. apply list_lookup_insert_ne. intros ->. apply Hj. now left.
    + intros [|k] j Hk; cbn in Hk.
      * injection Hk as <-. exists d, v. rewrite Nat.add_0_r.
        repeat split; [exact Hd | exact Hv |]. rewrite (Hout i Hi), Hkb'.
        apply list_lookup_insert_eq. now apply lookup_lt_Some in Hd.
      * destruct (Hin k j Hk) as (dj & vj & Hdj & Hvj & Hfinal).
        assert (Hne : i <> j).
        { intros ->. apply Hi. apply list_elem_of_In.
          eapply list_elem_of_lookup_2. exact Hk. }
        rewrite Hkb', list_lookup_insert_ne in Hdj by exact Hne.
        rewrite Hlog', length_app in Hvj. cbn in Hvj.
        exists dj, vj. repeat split; [exact Hdj | | exact Hfinal].
        rewrite <- Hvj. f_equal. lia.
Qed.

Lemma toEmbed_lt (docs : list Doc) (i : nat) : In i (toEmbed docs) -> i < length docs.
Proof. unfold toEmbed. rewrite List.filter_In, in_seq. lia. Qed.

Lemma toEmbed_complete (docs : list Doc) (i : nat) (d : Doc) :
  docs !! i = Some d -> ~ In i (toEmbed docs) -> embedded d.
Proof.
  intros Hd Hnot. unfold embedded. destruct (doc_embedding d) as [v|] eqn:He; [now exists v|].
  exfalso. apply Hnot. unfold toEmbed. rewrite List.filter_In, in_seq, Hd.
  unfold lacksEmbedding. rewrite He. apply lookup_lt_Some in Hd. split; [lia | reflexivity].
Qed.

(** The indices of [toEmbed] name the documents without embedding, in
    store order. *)
Lemma toEmbed_texts_from (pre l : list Doc) :
  map (textAt (pre ++ l))
      (List.filter (fun i => match (pre ++ l) !! i with
                             | Some d => lacksEmbedding d
                             | None => false
                             end) (seq (length pre) (length l)))
  = missingTexts l.
Proof.
  revert pre. induction l as [|d l IH]; intros pre; [reflexivity|].
  cbn [length seq List.filter]. rewrite list_lookup_middle by reflexivity.
  specialize (IH (pre ++ [d])). rewrite <- app_assoc, length_app in IH. cbn in IH.
  rewrite Nat.add_1_r in IH. unfold missingTexts. cbn [List.filter].
  destruct (lacksEmbedding d); cbn [map]; [|exact IH].
  f_equal; [|exact IH]. unfold textAt. now rewrite list_lookup_middle.
Qed.

Lemma toEmbed_texts (docs : list Doc) :
  map (textAt docs) (toEmbed docs) = missingTexts docs.
Proof. exact (toEmbed_texts_from [] docs). Qed.

Lemma toEmbed_embedded (docs : list Doc) : Forall embedded docs -> toEmbed docs = [].
Proof.
  intros H. destruct (toEmbed docs) as [|i rest] eqn:E; [reflexivity|].
  assert (Hi : In i (toEmbed docs)) by (rewrite E; now left).
  pose proof (toEmbed_lt _ _ Hi) as Hlt.
  destruct (lookup_lt_is_Some_2 docs i Hlt) as [d Hd].
  pose proof (toEmbed_lacks docs i d Hi Hd) as Hnone.
  rewrite Forall_lookup in H. destruct (H i d Hd) as [v Hv]. congruence.
Qed.

(** A store whose documents all have an embedding: no request is made and
    the snapshot is written. *)
Lemma ensureEmbeddings_embedded (w : World) :
  Forall embedded (kb w) ->
  ensureEmbeddings env w = (Ret tt, set_disk (Some (map serializeDoc (kb w))) w).
Proof.
  intros H. unfold ensureEmbeddings, bind, gets.
  now rewrite (toEmbed_embedded _ H).
Qed.

(** The whole backfill with every request answered. *)
Lemma ensureEmbeddings_run (w : World) :
  answers env (length (embed_log w)) (missingTexts (kb w)) ->
  exists w',
    ensureEmbeddings env w = (Ret tt, w') /\
    Forall embedded (kb w') /\
    map entryOf (kb w') = map entryOf (kb w) /\
    (forall i d, kb w !! i = Some d -> embedded d -> kb w' !! i = Some d) /\
    embed_log w' = embed_log w ++ missingTexts (kb w) /\
    disk w' = Some (map serializeDoc (kb w')) /\
    (forall k i, toEmbed (kb w) !! k = Some i ->
       exists d v, kb w !! i = Some d /\
         embedding_service env (length (embed_log w) + k) (doc_text d) = Reply v /\
         kb w' !! i = Some (mkDoc (doc_id d) (doc_text d) (Some v) (doc_timestamp d))).
Proof.
  intros Hans. rewrite <- toEmbed_texts in Hans.
  destruct (backfill_answered (toEmbed (kb w)) w (toEmbed_NoDup _)
              (toEmbed_lt _) Hans) as (w1 & Hrun & Hdisk & Hlog & Hout & Hin).
  exists (set_disk (Some (map serializeDoc (kb w1))) w1).
  unfold ensureEmbeddings, bind, gets, saveKB, modify. rewrite Hrun. cbn.
  assert (Hcase : forall j dj, kb w1 !! j = Some dj ->
            embedded dj /\ exists d, kb w !! j = Some d /\ entryOf dj = entryOf d).
  { intros j dj Hdj.
    destruct (in_dec Nat.eq_dec j (toEmbed (kb w))) as [Hj|Hj].
    - apply list_elem_of_In, list_elem_of_lookup_1 in Hj as [k Hk].
      destruct (Hin k j Hk) as (d & v & Hd & _ & Hfinal).
      rewrite Hfinal in Hdj. injection Hdj as <-.
      split; [now exists v | now exists d].
    - rewrite (Hout j Hj) in Hdj. split; [|now exists dj].
      exact (toEmbed_complete _ _ _ Hdj Hj). }
  assert (Hlen : length (kb w1) = length (kb w)).
  { apply Nat.le_antisymm.
    - destruct (Nat.le_gt_cases (length (kb w1)) (length (kb w))) as [H|H]; [exact H|].
      destruct (lookup_lt_is_Some_2 (kb w1) (length (kb w)) H) as [dj Hdj].
      destruct (Hcase _ _ Hdj) as [_ (d & Hd & _)].
      apply lookup_lt_Some in Hd. lia.
    - destruct (Nat.le_gt_cases (length (kb w)) (length (kb w1))) as [H|H]; [exact H|].
      destruct (lookup_lt_is_Some_2 (kb w) (length (kb w1)) H) as [d Hd].
      destruct (in_dec Nat.eq_dec (length (kb w1)) (toEmbed (kb w))) as [Hj|Hj].
      + apply list_elem_of_In, list_elem_of_lookup_1 in Hj as [k Hk].
        destruct (Hin k _ Hk) as (d0 & v & _ & _ & Hfinal).
        apply lookup_lt_Some in Hfinal. lia.
      + rewrite <- (Hout _ Hj) in Hd. apply lookup_lt_Some in Hd. lia. }
  repeat split.
  - apply Forall_lookup. intros j dj Hdj. exact (proj1 (Hcase j dj Hdj)).
  - apply list_eq. intros j. rewrite !list_lookup_fmap.
    destruct (kb w1 !! j) as [dj|] eqn:Hdj.
    + destruct (Hcase j dj Hdj) as [_ (d & -> & He)]. cbn. now rewrite He.
    + apply lookup_ge_None in Hdj. rewrite Hlen in Hdj.
      apply lookup_ge_None in Hdj. now rewrite Hdj.
  - intros i d Hd [v Hv]. rewrite Hout; [exact Hd|].
    intros Hi. pose proof (toEmbed_lacks _ _ _ Hi Hd). congruence.
  - rewrite Hlog. now rewrite toEmbed_texts.
  - exact Hin.
Qed.

End MoreBackfill.

(** X5: when every request of the backfill is answered, [ensureEmbeddings]
    returns with every document of the store having an embedding; the
    documents are the same in number, order, id, text and timestamp, those
    that had an embedding are untouched, and the snapshot written is the
    one of the store so completed. *)
Theorem ensureEmbeddings_completes (env : Env) (w : World) :
  answers env (length (embed_log w)) (missingTexts (kb w)) ->
  fst (ensureEmbeddings env w) = Ret tt /\
  Forall embedded (kb (snd (ensureEmbeddings env w))) /\
  map entryOf (kb (snd (ensureEmbeddings env w))) = map entryOf (kb w) /\
  (forall i d, kb w !! i = Some d -> embedded d ->
     kb (snd (ensureEmbeddings env w)) !! i = Some d) /\
  disk (snd (ensureEmbeddings env w))
    = Some (map serializeDoc (kb (snd (ensureEmbeddings env w)))).
Proof.
  intros Hans.
  destruct (ensureEmbeddings_run env w Hans)
    as (w' & -> & Hall & Hentries & Hkept & _ & Hdisk & _).
  cbn [fst snd]. auto.
Qed.

Lemma ensureEmbeddings_completes_witness :
  Forall embedded (kb (snd (ensureEmbeddings env_up (mkWorld [doc_seed; doc_x] None [] [] 0)))).
Proof.
  apply (ensureEmbeddings_completes env_up (mkWorld [doc_seed; doc_x] None [] [] 0)).
  intros i t _. now exists [Num 1; Num 0; Num 0]%float.
Defined.

(** X6: the backfill makes one request per document lacking an embedding,
    in store order and with the text of the document, and gives the
    document at the k-th such position the answer to the k-th request. *)
Theorem ensureEmbeddings_assigns (env : Env) (w : World) :
  answers env (length (embed_log w)) (missingTexts (kb w)) ->
  embed_log (snd (ensureEmbeddings env w)) = embed_log w ++ missingTexts (kb w) /\
  forall k i, toEmbed (kb w) !! k = Some i ->
    exists d v, kb w !! i = Some d /\ doc_embedding d = None /\
      embedding_service env (length (embed_log w) + k) (doc_text d) = Reply v /\
      kb (snd (ensureEmbeddings env w)) !! i
        = Some (mkDoc (doc_id d) (doc_text d) (Some v) (doc_timestamp d)).
Proof.
  intros Hans.
  destruct (ensureEmbeddings_run env w Hans)
    as (w' & -> & _ & _ & _ & Hlog & _ & Hin).
  cbn [snd]. split; [exact Hlog|]. intros k i Hk.
  destruct (Hin k i Hk) as (d & v & Hd & Hv & Hfinal).
  exists d, v. repeat split; try assumption.
  apply (toEmbed_lacks (kb w) i d); [|exact Hd].
  apply list_elem_of_In. eapply list_elem_of_lookup_2. exact Hk.
Qed.

Lemma ensureEmbeddings_assigns_witness :
  embed_log (snd (ensureEmbeddings env_up (mkWorld [doc_x; doc_seed] None [] [] 0)))
  = [seed1_text].
Proof.
  apply (ensureEmbeddings_assigns env_up (mkWorld [doc_x; doc_seed] None [] [] 0)).
  intros i t _. now exists [Num 1; Num 0; Num 0]%float.
Defined.



(** X8: when the embedding service fails on a document during the
    backfill, [ensureEmbeddings] throws with the failure message; no
    request is made for the documents after it, the documents other than
    those already served are as they were, and the snapshot is not
    written. *)
Theorem ensureEmbeddings_failure (env : Env) (w : World) (idx1 idx2 : list nat)
    (i : nat) (message : jsstring) :
  toEmbed (kb w) = idx1 ++ i :: idx2 ->
  answers env (length (embed_log w)) (map (textAt (kb w)) idx1) ->
  embedding_service env (length (embed_log w) + length idx1) (textAt (kb w) i)
    = Failure message ->
  exists w',
    ensureEmbeddings env w = (Throw message, w') /\
    disk w' = disk w /\
    embed_log w' = embed_log w ++ map (textAt (kb w)) idx1 ++ [textAt (kb w) i] /\
    (forall j, ~ In j idx1 -> kb w' !! j = kb w !! j).
Proof.
  intros Hsplit Hans Hfail.
  pose proof (toEmbed_NoDup (kb w)) as Hnd. rewrite Hsplit in Hnd.
  assert (Hlt : forall j, In j (idx1 ++ i :: idx2) -> j < length (kb w)).
  { intros j Hj. apply toEmbed_lt. now rewrite Hsplit. }
  destruct (backfill_answered env idx1 w) as (w1 & Hrun & Hdisk & Hlog & Hout & _).
  { now apply List.NoDup_app_remove_r in Hnd. }
  { intros j Hj. apply Hlt, in_or_app. now left. }
  { exact Hans. }
  assert (Hi : ~ In i idx1).
  { intros Hi. apply List.NoDup_remove_2 in Hnd. apply Hnd, in_or_app. now left. }
  destruct (lookup_lt_is_Some_2 (kb w) i) as [d Hd].
  { apply Hlt, in_or_app. right. now left. }
  assert (Ht : textAt (kb w) i = doc_text d) by (unfold textAt; now rewrite Hd).
  exists (set_embed_log (embed_log w1 ++ [doc_text d]) w1).
  unfold ensureEmbeddings. unfold bind at 1. unfold gets.
  unfold bind at 1. rewrite Hsplit, backfill_app, Hrun.
  cbn [backfill]. unfold bind at 1. unfold gets. rewrite (Hout i Hi), Hd.
  unfold bind at 1. unfold embedOne.
  rewrite Hlog, length_app, length_map, <- Ht, Hfail. cbn.
  rewrite <- app_assoc. repeat split; assumption.
Qed.

Lemma ensureEmbeddings_failure_witness :
  exists w',
    ensureEmbeddings env_second_fails (mkWorld [doc_seed; doc_x; doc_seed] None [] [] 0)
      = (Throw (lit "connect ECONNREFUSED"), w') /\
    disk w' = None /\
    embed_log w' = [seed1_text; seed1_text] /\
    kb w' !! 2 = Some doc_seed.
Proof.
  destruct (ensureEmbeddings_failure env_second_fails
              (mkWorld [doc_seed; doc_x; doc_seed] None [] [] 0) [0] [] 2
              (lit "connect ECONNREFUSED"))
    as (w' & Hrun & Hdisk & Hlog & Hout).
  - reflexivity.
  - intros [|k] t Ht; [now exists [Num 1; Num 0]%float | discriminate].
  - reflexivity.
  - exists w'. repeat split; [exact Hrun | exact Hdisk | exact Hlog |].
    rewrite Hout; [reflexivity|]. intros [H|[]]. discriminate.
Defined.

(** X9: a first start, with no snapshot and the two requests answered:
    the store holds the two seed documents with the two answers for
    embeddings, the requests were made with the seed texts in order, and
    the snapshot of this store is on disk. *)
Theorem startup_fresh (env : Env) (w : World) (v1 v2 : vec) :
  disk w = None ->
  embedding_service env (length (embed_log w)) seed1_text = Reply v1 ->
  embedding_service env (S (length (embed_log w))) seed2_text = Reply v2 ->
  exists w',
    startup env w = (Ret tt, w') /\
    kb w' = [ mkDoc (lit "d1") seed1_text (Some v1) (toISOString env (clock env (ticks w)));
              mkDoc (lit "d2") seed2_text (Some v2) (toISOString env (clock env (S (ticks w)))) ] /\
    embed_log w' = embed_log w ++ [seed1_text; seed2_text] /\
    disk w' = Some (map serializeDoc (kb w')).
Proof.
  intros Hdisk H1 H2. unfold startup. unfold bind at 1.
  unfold loadKB, bind at 1, gets. rewrite Hdisk.
  unfold bind, isoNow, modify. cbn -[seed1_text seed2_text lit].
  unfold bind, embedOne, gets, modify. cbn -[seed1_text seed2_text lit].
  rewrite H1. cbn -[seed1_text seed2_text lit]. rewrite length_app.
  cbn -[seed1_text seed2_text lit].
  replace (length (embed_log w) + 1) with (S (length (embed_log w))) by lia.
  rewrite H2. cbn -[seed1_text seed2_text lit]. rewrite <- app_assoc.
  eexists. repeat split.
Qed.

Lemma startup_fresh_witness :
  exists w',
    startup env_up world0 = (Ret tt, w') /\
    kb w' = [ mkDoc (lit "d1") seed1_text (Some [Num 1; Num 0; Num 0]%float)
                (lit "2024-01-01T00:00:00.000Z");
              mkDoc (lit "d2") seed2_text (Some [Num 1; Num 0; Num 0]%float)
                (lit "2024-01-01T00:00:00.000Z") ] /\
    embed_log w' = [seed1_text; seed2_text] /\
    disk w' = Some (map serializeDoc (kb w')).
Proof.
  apply (startup_fresh env_up world0 [Num 1; Num 0; Num 0]%float [Num 1; Num 0; Num 0]%float);
    reflexivity.
Defined.

(** X10: a start from a snapshot written by [saveKB] in which every
    document has an embedding: the store is the snapshot, no request is
    made to the embedding service, and the snapshot is written back
    unchanged; nothing else changes. *)
Theorem startup_from_snapshot (env : Env) (w : World) (docs : list Doc) :
  disk w = Some (map serializeDoc docs) ->
  Forall embedded docs ->
  startup env w = (Ret tt, set_kb (map serializeDoc docs) w).
Proof.
  intros Hdisk Hall. unfold startup. unfold bind at 1.
  unfold loadKB, bind at 1, gets. rewrite Hdisk. unfold modify.
  rewrite ensureEmbeddings_embedded.
  - cbn. rewrite map_map, (map_ext _ _ serializeDoc_idem).
    destruct w; cbn in *. now rewrite Hdisk.
  - cbn. apply Forall_map. eapply Forall_impl; [exact Hall|].
    intros d [v Hv]. unfold embedded, serializeDoc. cbn. rewrite Hv. now eexists.
Qed.

Lemma startup_from_snapshot_witness :
  startup env_down (mkWorld [] (Some (map serializeDoc [doc_x; doc_a])) [] [] 0)
  = (Ret tt, set_kb (map serializeDoc [doc_x; doc_a])
               (mkWorld [] (Some (map serializeDoc [doc_x; doc_a])) [] [] 0)).
Proof.
  apply (startup_from_snapshot env_down
           (mkWorld [] (Some (map serializeDoc [doc_x; doc_a])) [] [] 0) [doc_x; doc_a]).
  - reflexivity.
  - repeat constructor; now eexists.
Defined.

(** ** More on ingest *)

Section MoreIngest.

Variable env : Env.

(** A batch whose requests are all answered, document by document: the
    k-th accepted item becomes the k-th appended document, with the answer
    to the k-th request for embedding and the k-th clock reading for
    timestamp. *)
Lemma ingestLoop_exact (docs : list Item) (w : World) :
  answers env (length (embed_log w)) (map textOf (accepted docs)) ->
  exists w1 new,
    ingestLoop env docs w = (Ret tt, w1) /\
    kb w1 = kb w ++ new /\
    disk w1 = disk w /\
    embed_log w1 = embed_log w ++ map textOf (accepted docs) /\
    prompt_log w1 = prompt_log w /\
    ticks w1 = ticks w + length (accepted docs) /\
    length new = length (accepted docs) /\
    (forall k it, accepted docs !! k = Some it ->
       exists v, embedding_service env (length (embed_log w) + k) (textOf it) = Reply v /\
         new !! k = Some (mkDoc (idOf it) (textOf it) (Some v)
                            (toISOString env (clock env (ticks w + k))))).
Proof.
  revert w. induction docs as [|doc docs IH]; intros w Hans.
  - exists w, []. cbn. rewrite !app_nil_r, Nat.add_0_r.
    repeat split. intros k it Hk. discriminate.
  - cbn [ingestLoop]. rewrite accepted_cons in *.
    destruct (skipped doc) eqn:Hskip; [now apply IH|].
    cbn [map] in Hans.
    destruct (Hans 0 (textOf doc) eq_refl) as [v Hv]. rewrite Nat.add_0_r in Hv.
    unfold bind at 1. unfold embedOne. rewrite Hv.
    unfold bind at 1. unfold isoNow.
    unfold bind at 1. unfold modify.
    set (d := mkDoc (idOf doc) (textOf doc) (Some v) _).
    set (w' := set_kb _ _).
    assert (Hkb' : kb w' = kb w ++ [d]) by reflexivity.
    assert (Hlog' : embed_log w' = embed_log w ++ [textOf doc]) by reflexivity.
    assert (Hdisk' : disk w' = disk w) by reflexivity.
    assert (Hprompt' : prompt_log w' = prompt_log w) by reflexivity.
    assert (Hticks' : ticks w' = S (ticks w)) by reflexivity.
    clearbody w'.
    destruct (IH w') as (w1 & new & Hrun & Hkb & Hdisk & Hlog & Hprompt & Hticks & Hlen & Hnew).
    { rewrite Hlog', length_app. cbn.
      replace (length (embed_log w) + 1) with (S (length (embed_log w))) by lia.
      exact (answers_tail env _ _ _ Hans). }
    exists w1, (d :: new).
    rewrite Hrun, Hkb, Hkb', Hdisk, Hdisk', Hlog, Hlog', Hprompt, Hprompt', Hticks, Hticks'.
    rewrite <- !app_assoc. cbn [app map length].
    repeat split; try reflexivity; try lia.
    intros [|k] it Hk; cbn in Hk.
    + injection Hk as <-. exists v. rewrite !Nat.add_0_r. now split.
    + destruct (Hnew k it Hk) as (vk & Hvk & Hnk).
      rewrite Hlog', length_app in Hvk. cbn in Hvk. rewrite Hticks' in Hnk.
      exists vk. split.
      * rewrite <- Hvk. f_equal. lia.
      * change ((d :: new) !! S k) with (new !! k). rewrite Hnk.
        do 4 f_equal. lia.
Qed.

(** A batch in which every item is skipped runs without a request. *)
Lemma ingestLoop_skipped (docs : list Item) (w : World) :
  Forall (fun doc => skipped doc = true) docs ->
  ingestLoop env docs w = (Ret tt, w).
Proof.
  induction 1 as [|doc docs Hdoc Hdocs IH]; [reflexivity|].
  cbn [ingestLoop]. now rewrite Hdoc.
Qed.

End MoreIngest.

(** X11: a batch that is missing, empty, or made only of items without id
    or text is answered with [added] equal to its length, without any
    request to the embedding service (so also when the service is down);
    the store is unchanged, and the snapshot is written all the same. *)
Theorem ingest_nothing_accepted (env : Env) (documents : option (list Item))
    (w : World) :
  Forall (fun doc => skipped doc = true) (default [] documents) ->
  ingest env documents w
  = (Added (length (default [] documents)),
     set_disk (Some (map serializeDoc (kb w))) w).
Proof.
  intros H. unfold ingest, handle. unfold bind at 1.
  now rewrite (ingestLoop_skipped env _ w H).
Qed.

Lemma ingest_nothing_accepted_witness :
  ingest env_down (Some [mkItem None (Some (lit "text only")); mkItem (Some (lit "id")) (Some [])])
         world0
  = (Added 2, set_disk (Some []) world0).
Proof.
  apply (ingest_nothing_accepted env_down
           (Some [mkItem None (Some (lit "text only")); mkItem (Some (lit "id")) (Some [])])
           world0).
  repeat constructor.
Defined.

(** X12: when every request of the batch is answered, the k-th accepted
    item is appended as the k-th new document, with its id and text, the
    answer to the k-th request (made with its text) for embedding and the
    k-th clock reading of the batch for timestamp; the snapshot written
    holds the whole store, new documents included. *)
Theorem ingest_appends_and_persists (env : Env) (docs : list Item) (w : World) :
  answers env (length (embed_log w)) (map textOf (accepted docs)) ->
  exists new,
    kb (snd (ingest env (Some docs) w)) = kb w ++ new /\
    length new = length (accepted docs) /\
    (forall k it, accepted docs !! k = Some it ->
       exists v, embedding_service env (length (embed_log w) + k) (textOf it) = Reply v /\
         new !! k = Some (mkDoc (idOf it) (textOf it) (Some v)
                            (toISOString env (clock env (ticks w + k))))) /\
    embed_log (snd (ingest env (Some docs) w))
      = embed_log w ++ map textOf (accepted docs) /\
    disk (snd (ingest env (Some docs) w)) = Some (map serializeDoc (kb w ++ new)).
Proof.
  intros Hans.
  destruct (ingestLoop_exact env docs w Hans)
    as (w1 & new & Hrun & Hkb & _ & Hlog & _ & _ & Hlen & Hnew).
  exists new. unfold ingest. change (default [] (Some docs)) with docs.
  unfold handle, bind, saveKB, modify, ret. rewrite Hrun. cbn.
  rewrite Hkb. repeat split; assumption.
Qed.

Lemma ingest_appends_and_persists_witness :
  exists new,
    kb (snd (ingest env_up (Some [item "x" "hello"]) world0)) = kb world0 ++ new /\
    length new = 1.
Proof.
  destruct (ingest_appends_and_persists env_up [item "x" "hello"] world0)
    as (new & Hkb & Hlen & _).
  - intros i t _. now exists [Num 1; Num 0; Num 0]%float.
  - exists new. split; [exact Hkb | exact Hlen].
Defined.

(** X13: ingest never replaces or merges: when an accepted item carries the
    id of a document already in the store, that document stays where it
    is, unchanged, and a second document with the same id is appended. *)
Theorem ingest_keeps_duplicates (env : Env) (docs : list Item) (w : World)
    (i k : nat) (d : Doc) (it : Item) :
  answers env (length (embed_log w)) (map textOf (accepted docs)) ->
  kb w !! i = Some d ->
  accepted docs !! k = Some it ->
  idOf it = doc_id d ->
  kb (snd (ingest env (Some docs) w)) !! i = Some d /\
  exists d', kb (snd (ingest env (Some docs) w)) !! (length (kb w) + k) = Some d' /\
    doc_id d' = doc_id d /\ doc_text d' = textOf it.
Proof.
  intros Hans Hd Hk Hid.
  destruct (ingestLoop_exact env docs w Hans)
    as (w1 & new & Hrun & Hkb & _ & _ & _ & _ & _ & Hnew).
  unfold ingest. change (default [] (Some docs)) with docs.
  unfold handle, bind, saveKB, modify, ret. rewrite Hrun. cbn. rewrite Hkb.
  split.
  - rewrite lookup_app_l; [exact Hd | now apply lookup_lt_Some in Hd].
  - destruct (Hnew k it Hk) as (v & _ & Hnk).
    eexists. rewrite lookup_app_r by lia.
    replace (length (kb w) + k - length (kb w)) with k by lia.
    split; [exact Hnk|]. cbn. now split.
Qed.

Lemma ingest_keeps_duplicates_witness :
  kb (snd (ingest env_up (Some [item "x" "again"]) (mkWorld [doc_x] None [] [] 0))) !! 0
  = Some doc_x.
Proof.
  apply (ingest_keeps_duplicates env_up [item "x" "again"] (mkWorld [doc_x] None [] [] 0)
           0 0 doc_x (item "x" "again")).
  - intros i t _. now exists [Num 1; Num 0; Num 0]%float.
  - reflexivity.
  - reflexivity.
  - reflexivity.
Defined.

(** ** More on chat *)

Section MoreChat.

Variable env : Env.

Lemma trimStart_head (s r : jsstring) (c : N) :
  trimStart s = c :: r -> isWhiteSpace c = false.
Proof.
  induction s as [|a s IH]; [discriminate|]. cbn [trimStart].
  destruct (isWhiteSpace a) eqn:Ha; [exact IH|]. now intros [= <- _].
Qed.

Lemma trimStart_nil (s : jsstring) :
  trimStart s = [] -> Forall (fun c => isWhiteSpace c = true) s.
Proof.
  induction s as [|a s IH]; [constructor|]. cbn [trimStart].
  destruct (isWhiteSpace a) eqn:Ha; [|discriminate].
  intros H. constructor; [exact Ha | now apply IH].
Qed.

Lemma trim_nil (s : jsstring) :
  trim s = [] -> Forall (fun c => isWhiteSpace c = true) s.
Proof.
  unfold trim. intros H. apply (f_equal (@rev N)) in H.
  rewrite rev_involutive in H. cbn in H.
  apply trimStart_nil in H. apply Forall_rev in H. rewrite rev_involutive in H.
  destruct (trimStart s) as [|c r] eqn:E; [now apply trimStart_nil|].
  apply trimStart_head in E. inversion H; congruence.
Qed.

(** [!query || !query.trim()] holds exactly for a missing query and for a
    string of white space. *)
Lemma blank_spec (query : option jsstring) :
  blank query = true <->
  query = None \/
  exists s, query = Some s /\ Forall (fun c => isWhiteSpace c = true) s.
Proof.
  split.
  - destruct query as [s|]; [|now left]. intros H. right. exists s.
    split; [reflexivity|]. unfold blank in H. cbn [option_map] in H.
    apply orb_true_iff in H as [H|H].
    + destruct s; [constructor | discriminate].
    + apply trim_nil. cbn in H. now destruct (trim s).
  - intros [-> | (s & -> & Hs)]; [reflexivity|].
    unfold blank. cbn [option_map]. rewrite (trim_whitespace s Hs).
    apply orb_true_r.
Qed.

Lemma not_blank (q : jsstring) :
  Exists (fun c => isWhiteSpace c = false) q -> blank (Some q) = false.
Proof.
  intros Hq. destruct (blank (Some q)) eqn:E; [|reflexivity].
  apply blank_spec in E as [E | (s & [= <-] & Hs)]; [discriminate|].
  apply List.Exists_exists in Hq as (c & Hc & Hws).
  rewrite List.Forall_forall in Hs. rewrite (Hs c Hc) in Hws. discriminate.
Qed.

Lemma chat_disk (query : option jsstring) (topK : option Z) (w : World) :
  disk (snd (chat env query topK w)) = disk w.
Proof.
  unfold chat, handle. destruct (blank query); [reflexivity|].
  unfold bind, embedOne, gets, lift, dateNow, generate, ret.
  destruct (embedding_service env _ _) as [qemb|message]; [|reflexivity].
  cbn. destruct (rank qemb topK (kb w)) as [ranked|message]; [|reflexivity].
  cbn. destruct (generation_service env _ _); reflexivity.
Qed.

(** A document without embedding stops the scoring when the query vector
    is not empty. *)
Lemma scoreAll_unembedded (qemb : vec) (docs : list Doc) :
  qemb <> [] ->
  Exists (fun d => doc_embedding d = None) docs ->
  scoreAll qemb docs = Throw typeError.
Proof.
  intros Hq. induction 1 as [d docs Hd | d docs Hdocs IH]; cbn [scoreAll].
  - rewrite Hd. cbn. now destruct qemb.
  - rewrite IH. destruct (doc_embedding d) as [b|]; cbn; [reflexivity|].
    now destruct qemb.
Qed.

End MoreChat.


(** X15: [POST /chat] never writes: whatever the query, [topK] and the
    services' answers, the store and the snapshot on disk are the same
    after the request; at most the query itself, untrimmed, is sent to the
    embedding service. *)
Theorem chat_read_only (env : Env) (query : option jsstring)
    (topK : option Z) (w : World) :
  kb (snd (chat env query topK w)) = kb w /\
  disk (snd (chat env query topK w)) = disk w /\
  (embed_log (snd (chat env query topK w)) = embed_log w \/
   exists q, query = Some q /\
     embed_log (snd (chat env query topK w)) = embed_log w ++ [q]).
Proof.
  split; [apply chat_kb|]. split; [apply chat_disk|].
  unfold chat, handle. destruct (blank query) eqn:Hb; [now left|].
  destruct query as [q|]; [|discriminate]. right. exists q. split; [reflexivity|].
  unfold bind, embedOne, gets, lift, dateNow, generate, ret.
  change (default [] (Some q)) with q.
  destruct (embedding_service env _ _) as [qemb|message]; [|reflexivity].
  cbn. destruct (rank qemb topK (kb w)) as [ranked|message]; [|reflexivity].
  cbn. destruct (generation_service env _ _); reflexivity.
Qed.

(** X16: when the embedding service fails on the query, [POST /chat]
    answers 500 with the failure message; the generation service is not
    called and the clock is not read. *)
Theorem chat_embedding_failure (env : Env) (q : jsstring) (topK : option Z)
    (w : World) (message : jsstring) :
  Exists (fun c => isWhiteSpace c = false) q ->
  embedding_service env (length (embed_log w)) q = Failure message ->
  chat env (Some q) topK w
  = (Error 500 message, set_embed_log (embed_log w ++ [q]) w).
Proof.
  intros Hq Hfail. unfold chat, handle. rewrite (not_blank q Hq).
  change (default [] (Some q)) with q.
  unfold bind at 1. unfold embedOne. now rewrite Hfail.
Qed.

Lemma chat_embedding_failure_witness :
  chat env_down (Some (lit "what is it")) None (mkWorld [doc_x] None [] [] 0)
  = (Error 500 (lit "connect ECONNREFUSED"),
     set_embed_log [lit "what is it"] (mkWorld [doc_x] None [] [] 0)).
Proof.
  apply (chat_embedding_failure env_down (lit "what is it") None
           (mkWorld [doc_x] None [] [] 0) (lit "connect ECONNREFUSED")).
  - apply Exists_cons_hd. reflexivity.
  - reflexivity.
Defined.

(** X17: a document without embedding in the store makes every
    [POST /chat] whose query gets a non-empty embedding fail with status
    500 and the message of the TypeError; the generation service is not
    called. *)
Theorem chat_unembedded_document (env : Env) (q : jsstring) (topK : option Z)
    (w : World) (qemb : vec) :
  Exists (fun c => isWhiteSpace c = false) q ->
  embedding_service env (length (embed_log w)) q = Reply qemb ->
  qemb <> [] ->
  Exists (fun d => doc_embedding d = None) (kb w) ->
  chat env (Some q) topK w
  = (Error 500 typeError, set_embed_log (embed_log w ++ [q]) w).
Proof.
  intros Hq Hreply Hne Hdoc. unfold chat, handle. rewrite (not_blank q Hq).
  change (default [] (Some q)) with q.
  unfold bind at 1. unfold embedOne. rewrite Hreply.
  unfold bind at 1. unfold gets. unfold bind at 1. unfold lift, rank. cbn [kb set_embed_log].
  now rewrite (scoreAll_unembedded qemb (kb w) Hne Hdoc).
Qed.

Lemma chat_unembedded_document_witness :
  chat env_up (Some (lit "what is it")) None (mkWorld [doc_x; doc_seed] None [] [] 0)
  = (Error 500 typeError,
     set_embed_log [lit "what is it"] (mkWorld [doc_x; doc_seed] None [] [] 0)).
Proof.
  apply (chat_unembedded_document env_up (lit "what is it") None
           (mkWorld [doc_x; doc_seed] None [] [] 0) [Num 1; Num 0; Num 0]%float).
  - apply Exists_cons_hd. reflexivity.
  - reflexivity.
  - discriminate.
  - apply Exists_cons_tl, Exists_cons_hd. reflexivity.
Defined.



(** ** More on ranking *)

Section MoreRanking.

Lemma leb_not_ltb (x y : float) : (y <=? x)%float = true -> (x <? y)%float = false.
Proof.
  rewrite ltb_spec, leb_spec. unfold SFltb, SFleb.
  rewrite (SFcompare_antisym (Prim2SF x) (Prim2SF y)).
  now destruct (SFcompare (Prim2SF x) (Prim2SF y)) as [[]|].
Qed.

Lemma leb_numeric (x y : float) :
  (y <=? x)%float = true -> is_nan x = false /\ is_nan y = false.
Proof.
  rewrite leb_spec. unfold is_nan. rewrite !FloatAxioms.eqb_spec.
  unfold SFleb, SFeqb.
  destruct (Prim2SF x) as [sx|sx| |sx mx ex] eqn:Ex,
           (Prim2SF y) as [sy|sy| |sy my ey] eqn:Ey;
    try discriminate; intros _; split;
    try reflexivity; try (now destruct sx); try (now destruct sy);
    apply negb_false_iff; apply SFeqb_refl_finite.
Qed.

(** Sorting candidates that are already from the highest score to the
    lowest, ties included, changes nothing. *)
Lemma sort_sorted_id (l : list Scored) : Sorted notAbove l -> sort l = l.
Proof.
  induction 1 as [|x l Hl IH Hhd]; [reflexivity|].
  cbn [sort]. rewrite IH. destruct Hhd as [|y l' Hxy]; [reflexivity|].
  cbn [insert]. unfold compareFn. unfold notAbove in Hxy.
  destruct (leb_numeric _ _ Hxy) as [Hx Hy].
  now rewrite (sub_sign (score x) (score y) Hx Hy), (leb_not_ltb _ _ Hxy).
Qed.

Lemma cosineOf_empty (b : option vec) : cosineOf [] b = Ret 0%float.
Proof. now destruct b. Qed.

Lemma scoreAll_empty (docs : list Doc) : scoreAll [] docs = Ret (zeroScored docs).
Proof.
  induction docs as [|d docs IH]; [reflexivity|].
  cbn [scoreAll]. now rewrite cosineOf_empty, IH.
Qed.

Lemma zeroScored_sorted (docs : list Doc) : Sorted notAbove (zeroScored docs).
Proof.
  induction docs as [|d docs IH]; [constructor|].
  cbn. constructor; [exact IH|]. destruct docs; constructor. reflexivity.
Qed.


Lemma slice0_negative {A} (l : list A) (e : Z) :
  (e < 0)%Z -> slice0 l e = take (length l - Z.to_nat (- e)) l.
Proof.
  intros He. unfold slice0. destruct (Z.ltb_spec e 0); [|lia].
  f_equal. lia.
Qed.

End MoreRanking.

(** X19: with an empty query embedding every document scores [+0],
    whether it has an embedding or not: the ranking never throws and
    returns the first [topK] documents in store order. *)
Theorem rank_empty_query (topK : option Z) (docs : list Doc) :
  rank [] topK docs = Ret (slice0 (zeroScored docs) (topKOf topK)).
Proof.
  unfold rank. rewrite scoreAll_empty.
  now rewrite (sort_sorted_id _ (zeroScored_sorted docs)).
Qed.

(** X20: the ranking is stable on a corpus already in order: when the
    scores, in store order, go from the highest to the lowest, ties
    included, the candidates are returned in store order. *)
Theorem rank_keeps_order (qemb : vec) (topK : option Z) (docs : list Doc)
    (scored : list Scored) :
  scoreAll qemb docs = Ret scored ->
  descending scored ->
  rank qemb topK docs = Ret (slice0 scored (topKOf topK)).
Proof.
  intros Hrun Hdesc. unfold rank. rewrite Hrun.
  now rewrite (sort_sorted_id scored (StronglySorted_Sorted Hdesc)).
Qed.

Lemma rank_keeps_order_witness :
  rank [Num 1; Num 0]%float (Some 5%Z) [doc_a; doc_b; doc_b]
  = Ret (slice0 [mkScored doc_a 0x1.fffffff768fa0p-1%float;
                 mkScored doc_b 0%float; mkScored doc_b 0%float] (topKOf (Some 5%Z))).
Proof.
  apply (rank_keeps_order [Num 1; Num 0]%float (Some 5%Z) [doc_a; doc_b; doc_b]).
  - reflexivity.
  - repeat constructor.
Defined.

(** X21: a negative [topK] counts from the end: with every document
    scorable, [rank] returns the whole corpus ordered from the highest
    score to the lowest, without its last [-topK] candidates. *)
Theorem rank_negative_topK (qemb : vec) (k : Z) (docs : list Doc) :
  (k < 0)%Z ->
  Forall (scorable qemb) docs ->
  exists all,
    descending all /\ Permutation (map scored_doc all) docs /\
    rank qemb (Some k) docs = Ret (take (length docs - Z.to_nat (- k)) all).
Proof.
  intros Hk Hdocs.
  destruct (scoreAll_scorable qemb docs Hdocs) as (scored & Hrun & Hmap & Hnum & _).
  exists (sort scored). split; [now apply sort_descending|].
  assert (Hperm : Permutation (map scored_doc (sort scored)) docs).
  { rewrite <- Hmap. apply Permutation_map, sort_perm. }
  split; [exact Hperm|].
  unfold rank. rewrite Hrun. cbn [topKOf default from_option id].
  rewrite (slice0_negative _ _ Hk). do 2 f_equal.
  rewrite <- (length_map scored_doc (sort scored)). f_equal.
  now apply Permutation_length.
Qed.

Lemma rank_negative_topK_witness :
  exists all,
    descending all /\ Permutation (map scored_doc all) [doc_b; doc_a; doc_b] /\
    rank [Num 1; Num 0]%float (Some (-2)%Z) [doc_b; doc_a; doc_b]
    = Ret (take (length [doc_b; doc_a; doc_b] - Z.to_nat (- (-2))) all).
Proof.
  apply (rank_negative_topK [Num 1; Num 0]%float (-2)%Z [doc_b; doc_a; doc_b]).
  - lia.
  - repeat constructor.
    + exists 0%float. split; reflexivity.
    + exists 0x1.fffffff768fa0p-1%float. split; reflexivity.
    + exists 0%float. split; reflexivity.
Defined.



(** ** The listing *)

Section Listing.

Variable env : Env.

Lemma run_preserved (ops : list Op) (w : World) :
  preserved (kb w) (kb (run env ops w)).
Proof.
  revert w. induction ops as [|op ops IH]; intros w i d Hd.
  - exists d. split; [exact Hd | apply sameDocument_refl].
  - destruct (step_preserved env op w i d Hd) as (d1 & Hd1 & Hsame1 & _).
    destruct (IH (step env op w) i d1 Hd1) as (d' & Hd' & Hsame).
    exists d'. split; [exact Hd'|]. now apply (sameDocument_trans d d1 d').
Qed.

End Listing.

(** X23: what [GET /kb] lists stays listed: after any sequence of
    backfills, ingests and chat queries, the listing starts with the
    entries it had before, in the same order; the requests only add
    entries at the end. *)
Theorem listing_grows (env : Env) (ops : list Op) (w : World) :
  exists later,
    fst (listKB (run env ops w)) = Ret (map entryOf (kb w) ++ later) /\
    fst (listKB w) = Ret (map entryOf (kb w)).
Proof.
  pose proof (run_preserved env ops w) as Hpres.
  exists (drop (length (kb w)) (map entryOf (kb (run env ops w)))).
  split; [|reflexivity]. unfold listKB, bind, gets, ret. cbn [fst]. f_equal.
  rewrite <- (take_drop (length (kb w)) (map entryOf (kb (run env ops w)))) at 1.
  f_equal. apply list_eq. intros i.
  destruct (kb w !! i) as [d|] eqn:Hd.
  - destruct (Hpres i d Hd) as (d' & Hd' & Hi & Ht & Hs & _).
    rewrite lookup_take_lt by (now apply lookup_lt_Some in Hd).
    rewrite !list_lookup_fmap, Hd, Hd'. cbn. unfold entryOf. now rewrite Hi, Ht, Hs.
  - rewrite list_lookup_fmap, Hd. cbn. apply lookup_take_ge.
    now apply lookup_ge_None in Hd.
Qed.

Example health_counts :
  fst (health env_up (mkWorld [doc_x; doc_a] None [] [] 0))
  = Ret (mkHealth (lit "ok") (lit "2024-01-01T00:00:00.000Z") 2).
Proof. reflexivity. Qed.
